(** * GameHub: the Memory Match engine and its pair-count configuration

    A shallow embedding of the matching-pairs game of [src/App.tsx]
    (the hook [useMemoryDeck], the helper [shuffle], and the two readers of
    the [pairs] query parameter, [useQueryPairs] and [usePairsParam]).

    Conventions of the embedding.
    - A JavaScript array is a [list]; [a[i]] is stdpp's lookup [a !! i] and
      an in-place write [a[i] = x] is [<[i:=x]> a].
    - A JavaScript [number] holding a clock reading or a [Math.random()]
      result is a rational ([Q]); a card id and the move counter are
      naturals.
    - The React state of [useMemoryDeck] is a record; every event of the
      single-threaded event loop (a call of [flip], a call of [reset], the
      firing of a [setTimeout] callback) is one atomic transition on it,
      followed by the [useEffect] on [deck] when the transition installed a
      new array.  Every state updater is taken to run exactly once.
    - The callbacks handed to [setTimeout] are kept in the state as the
      list of outstanding timers, oldest first. *)

From Stdlib Require Import ZArith QArith Qround String DecimalString.
From stdpp Require Import base list strings.

(** ** Cards *)

(** [type Card = { id; emoji; flipped; matched }]. *)
Record Card := mkCard {
  id : nat;
  emoji : string;
  flipped : bool;
  matched : bool
}.

#[global] Instance Card_eq_dec : EqDecision Card.
Proof. solve_decision. Defined.

(** ** [Math.random] and the Fisher-Yates loop *)

(** The successive results of [Math.random()] during one call of [shuffle]:
    [rnd k] is the result of the call number [k].  The contract of the
    builtin is that every result lies in [0, 1). *)
Definition valid_random (rnd : nat -> Q) : Prop :=
  forall k, (0 <= rnd k)%Q /\ (rnd k < 1)%Q.

(** [Math.floor(Math.random() * (i + 1))], for the result [r] of
    [Math.random()]. *)
Definition pick (i : nat) (r : Q) : nat :=
  Z.to_nat (Qfloor (r * inject_Z (Z.of_nat i + 1))).

Section Shuffle.
Context {T : Type}.

(** [[a[i], a[j]] = [a[j], a[i]]]: both reads happen first, then [a[i]]
    and [a[j]] are written in this order.  When an index is outside the
    array JavaScript would read [undefined] and grow the array; the loop
    only ever swaps inside the array (lemma [pick_le]), and the
    embedding leaves the array as it is there. *)
Definition swap (a : list T) (i j : nat) : list T :=
  match a !! i, a !! j with
  | Some x, Some y => <[j := x]> (<[i := y]> a)
  | _, _ => a
  end.

(** The body and the control of
    [for (let i = a.length - 1; i > 0; i--) { ... }], started at index
    [i], with [k] calls of [Math.random] already made. *)
Fixpoint shuffle_loop (rnd : nat -> Q) (k i : nat) (a : list T) : list T :=
  match i with
  | O => a
  | S i' => shuffle_loop rnd (S k) i' (swap a i (pick i (rnd k)))
  end.

(** [shuffle(arr)]: the array it returns. *)
Definition shuffle (rnd : nat -> Q) (arr : list T) : list T :=
  shuffle_loop rnd 0 (length arr - 1) arr.

(** The same loop with every array access checked: [None] as soon as an
    index falls outside the array, where JavaScript would read [undefined]
    and the array would stop being a list of [T]. *)
Definition swap_checked (a : list T) (i j : nat) : option (list T) :=
  match a !! i, a !! j with
  | Some x, Some y => Some (<[j := x]> (<[i := y]> a))
  | _, _ => None
  end.

Fixpoint shuffle_loop_checked (rnd : nat -> Q) (k i : nat) (a : list T)
  : option (list T) :=
  match i with
  | O => Some a
  | S i' =>
      match swap_checked a i (pick i (rnd k)) with
      | None => None
      | Some a' => shuffle_loop_checked rnd (S k) i' a'
      end
  end.

Definition shuffle_checked (rnd : nat -> Q) (arr : list T)
  : option (list T) :=
  shuffle_loop_checked rnd 0 (length arr - 1) arr.

(** *** The same function over a store of arrays

    To speak about the argument array being left alone, arrays live in a
    store indexed by address.  [const a = [...arr]] allocates a copy at a
    fresh address and every swap writes to that address. *)
Fixpoint shuffle_loop_at (rnd : nat -> Q) (k i : nat) (a : nat)
  (h : list (list T)) : list (list T) :=
  match i with
  | O => h
  | S i' =>
      shuffle_loop_at rnd (S k) i' a
        (alter (fun l => swap l i (pick i (rnd k))) a h)
  end.

(** Returns the address of the result and the new store; [None] when
    [arr] is not an address of the store. *)
Definition shuffle_at (rnd : nat -> Q) (arr : nat) (h : list (list T))
  : option (nat * list (list T)) :=
  match h !! arr with
  | None => None
  | Some l =>
      let a := length h in
      Some (a, shuffle_loop_at rnd 0 (length l - 1) a (h ++ [l]))
  end.
End Shuffle.

(** ** The deck generator ([reset], lines 33-41) *)

(** [const emojis = [...]], the fixed palette of sixteen tokens. *)
Definition emojis : list string :=
  [ "🍕"; "🎮"; "🚀"; "🤖"; "🐱"; "🧠"; "⚡️"; "🌈";
    "🍪"; "🎧"; "🧩"; "💎"; "🔥"; "🌙"; "📀"; "🪄" ]%string.

(** The integer conversion [Array.prototype.slice] applies to its bounds:
    truncation towards zero. *)
Definition to_integer (q : Q) : Z :=
  if Qle_bool 0 q then Qfloor q else Qceiling q.

(** [arr.slice(0, e)]: a negative bound counts from the end, and the bound
    is clamped to the length. *)
Definition slice0 {T} (arr : list T) (e : Q) : list T :=
  let len := Z.of_nat (length arr) in
  let n := to_integer e in
  let final := if (n <? 0)%Z then Z.max (len + n) 0 else Z.min n len in
  take (Z.to_nat final) arr.

(** [{ id, emoji: e, flipped: false, matched: false }]. *)
Definition fresh_card (i : nat) (e : string) : Card :=
  mkCard i e false false.

(** [chosen.flatMap((e, idx) => [ {id: idx * 2, ...}, {id: idx * 2 + 1, ...} ])]. *)
Definition seed (chosen : list string) : list Card :=
  List.concat
    (imap (fun idx e => [fresh_card (idx * 2) e; fresh_card (idx * 2 + 1) e])
       chosen).

(** The deck [reset] hands to [setDeck], for the hook argument [pairs]. *)
Definition generate (pairs : Q) (rnd : nat -> Q) : list Card :=
  shuffle rnd (seed (slice0 emojis pairs)).

(** The same over stores of arrays: [pal] is the address of the palette in
    the store of string arrays; [slice] and [flatMap] allocate their
    results, and [shuffle] works on a copy (see [shuffle_at]).  Returns the
    address of the deck and the two stores. *)
Definition generate_at (pairs : Q) (rnd : nat -> Q) (pal : nat)
  (hs : list (list string)) (hc : list (list Card))
  : option (nat * list (list string) * list (list Card)) :=
  match hs !! pal with
  | None => None
  | Some palette =>
      let chosen := slice0 palette pairs in
      let hs1 := hs ++ [chosen] in
      let hc1 := hc ++ [seed chosen] in
      match shuffle_at rnd (length hc) hc1 with
      | None => None
      | Some (a, hc2) => Some (a, hs1, hc2)
      end
  end.

(** [MEMORY_PAIR_OPTIONS = [6, 8, 10, 12]], the counts offered by the
    [Pairs:] selector. *)
Definition MEMORY_PAIR_OPTIONS : list Z := [6; 8; 10; 12]%Z.

(** What makes a deck well formed for [p] pairs over a palette. *)
Definition dealt (palette : list string) (p : nat) (d : list Card) : Prop :=
  length d = 2 * p /\
  Forall (fun e => length (filter (fun c => emoji c = e) d) = 2)
    (take p palette) /\
  Forall (fun c => emoji c ∈ take p palette) d /\
  NoDup (id <$> d) /\
  Forall (fun c => flipped c = false /\ matched c = false) d.

#[global] Instance dealt_dec palette p d : Decision (dealt palette p d).
Proof. unfold dealt. apply _. Defined.

(** ** The match engine ([useMemoryDeck]) *)

(** The two callbacks [flip] hands to [setTimeout]. *)
Inductive Resolution :=
  | MarkMatched   (* c.flipped && !c.matched ? { ...c, matched: true } : c *)
  | HideAgain.    (* c.flipped && !c.matched ? { ...c, flipped: false } : c *)

(** An outstanding [setTimeout]: its delay in milliseconds, the clock
    reading at which it becomes due, and its callback. *)
Record Timer := mkTimer {
  delay : Z;
  due : Q;
  action : Resolution
}.

(** The five [useState] cells of the hook and the outstanding timers. *)
Record Engine := mkEngine {
  deck : list Card;
  moves : nat;
  locked : bool;
  startedAt : option Q;
  finishedAt : option Q;
  timers : list Timer
}.

(** The values the [useState] calls start from. *)
Definition init : Engine := mkEngine [] 0 false None None [].

(** Truthiness of a [number | null]: [null] and [0] are falsy. *)
Definition truthy (t : option Q) : bool :=
  match t with
  | Some q => negb (Qeq_bool q 0)
  | None => false
  end.

(** [c.flipped && !c.matched]. *)
Definition is_open (c : Card) : bool := flipped c && negb (matched c).

(** [d[index]] for a [number] index that is an integer: [undefined]
    (here [None]) below zero and past the end. *)
Definition card_at (d : list Card) (index : Z) : option Card :=
  if (index <? 0)%Z then None else d !! Z.to_nat index.

(** [card.flipped = true]. *)
Definition turn_up (c : Card) : Card := mkCard (id c) (emoji c) true (matched c).

(** The timer [flip] schedules for the two open cards [a] and [b]. *)
Definition resolution_timer (now : Q) (a b : Card) : Timer :=
  if String.eqb (emoji a) (emoji b)
  then mkTimer 350 (now + 350) MarkMatched
  else mkTimer 650 (now + 650) HideAgain.

(** [deck.length && deck.every(c => c.matched)]. *)
Definition complete (d : list Card) : bool :=
  negb (Nat.eqb (length d) 0) && forallb matched d.

(** The [useEffect] on [deck], run at clock reading [now]:
    [if (deck.length && deck.every(...)) setFinishedAt(performance.now())]. *)
Definition deck_effect (now : Q) (s : Engine) : Engine :=
  if complete (deck s)
  then mkEngine (deck s) (moves s) (locked s) (startedAt s) (Some now) (timers s)
  else s.

(** [flip(index)] at clock reading [now].  The boolean tells whether the
    updater returned a new array ([d]) rather than [prev]: React re-runs
    the effect on [deck] only then. *)
Definition flip (now : Q) (index : Z) (s : Engine) : Engine * bool :=
  if locked s then (s, false)
  else
    match card_at (deck s) index with
    | None => (s, false)
    | Some card =>
        if flipped card || matched card then (s, false)
        else
          let started :=
            if truthy (startedAt s) then startedAt s else Some now in
          let d := <[Z.to_nat index := turn_up card]> (deck s) in
          match List.filter is_open d with
          | [a; b] =>
              (mkEngine d (moves s + 1) true started (finishedAt s)
                 (timers s ++ [resolution_timer now a b]), true)
          | _ =>
              (mkEngine d (moves s) (locked s) started (finishedAt s)
                 (timers s), true)
          end
    end.

(** What a timer callback does to one card. *)
Definition resolve (r : Resolution) (c : Card) : Card :=
  if is_open c then
    match r with
    | MarkMatched => mkCard (id c) (emoji c) (flipped c) true
    | HideAgain => mkCard (id c) (emoji c) false (matched c)
    end
  else c.

(** The outstanding timer number [k] fires:
    [setDeck(cur => cur.map(...)); setLocked(false)].  [map] always builds
    a new array.  Nothing happens when there is no such timer. *)
Definition fire (k : nat) (s : Engine) : Engine * bool :=
  match timers s !! k with
  | None => (s, false)
  | Some t =>
      (mkEngine (resolve (action t) <$> deck s) (moves s) false
         (startedAt s) (finishedAt s) (delete k (timers s)), true)
  end.

(** [reset()], for the current hook argument [pairs].  No timer is
    cleared. *)
Definition reset (pairs : Q) (rnd : nat -> Q) (s : Engine) : Engine * bool :=
  (mkEngine (generate pairs rnd) 0 false None None (timers s), true).

(** [Math.round]: the nearest integer, a half going up. *)
Definition Math_round (q : Q) : Z := Qfloor (q + (1 # 2)).

(** [finishedAt && startedAt ? Math.round(finishedAt - startedAt) : null]. *)
Definition elapsedMs (s : Engine) : option Z :=
  match finishedAt s, startedAt s with
  | Some f, Some st =>
      if truthy (Some f) && truthy (Some st) then Some (Math_round (f - st))
      else None
  | _, _ => None
  end.

(** *** Events and runs *)

(** What the event loop delivers, each with the reading of
    [performance.now()] while it is handled: a call of [flip], the firing
    of the outstanding timer number [k], and a call of [reset] (from the
    Restart button or from the effect on [pairs]) with the results of its
    [Math.random] calls. *)
Inductive Event :=
  | Flip (now : Q) (index : Z)
  | Fire (now : Q) (k : nat)
  | Reset (now : Q) (pairs : Q) (rnd : nat -> Q).

Definition time_of (e : Event) : Q :=
  match e with Flip now _ | Fire now _ | Reset now _ _ => now end.

Definition handle (e : Event) (s : Engine) : Engine * bool :=
  match e with
  | Flip now index => flip now index s
  | Fire _ k => fire k s
  | Reset _ pairs rnd => reset pairs rnd s
  end.

(** One turn of the event loop: the handler, then the effect on [deck] if
    a new array was installed. *)
Definition step (e : Event) (s : Engine) : Engine :=
  let '(s', replaced) := handle e s in
  if replaced then deck_effect (time_of e) s' else s'.

Definition run (tr : list Event) (s : Engine) : Engine :=
  fold_left (fun s e => step e s) tr s.

(** The environment keeps its contracts: the clock is positive and
    [Math.random] stays in [0, 1). *)
Definition valid_event (e : Event) : Prop :=
  (0 < time_of e)%Q /\
  match e with
  | Reset _ _ rnd => valid_random rnd
  | _ => True
  end.

Inductive Reachable : Engine -> Prop :=
  | Reachable_init : Reachable init
  | Reachable_step s e :
      Reachable s -> valid_event e -> Reachable (step e s).

(** A run in which every timer is served on time: the clock never goes
    back, a timer fires only once it is due and no outstanding timer was
    due before it (timers due at the same instant fire oldest first), and
    no flip or reset is handled while a timer is overdue. *)
Definition may_fire (now : Q) (k : nat) (ts : list Timer) : bool :=
  match ts !! k with
  | None => false
  | Some t =>
      Qle_bool (due t) now &&
      forallb (fun u => Qle_bool (due t) (due u)) (drop (S k) ts) &&
      forallb (fun u => negb (Qle_bool (due u) (due t))) (take k ts)
  end.

Fixpoint timely (last : Q) (tr : list Event) (s : Engine) : bool :=
  match tr with
  | [] => true
  | e :: tr' =>
      Qle_bool last (time_of e) &&
      match e with
      | Fire now k => may_fire now k (timers s)
      | _ => forallb (fun u => Qle_bool (time_of e) (due u)) (timers s)
      end &&
      timely (time_of e) tr' (step e s)
  end.

(** ** The pair-count configuration *)

(** A JavaScript [number]. *)
Inductive JSNumber :=
  | NaN
  | Infinity (positive : bool)
  | Num (q : Q).

Section Configuration.
(** The builtin conversion [Number(s)] of a string.  It is not code of
    the repository: the readers below are defined, and their properties
    proved, for any conversion. *)
Variable StringToNumber : string -> JSNumber.

(** [Number(v)] for [v : string | null]; [Number(null)] is [0]. *)
Definition Number (v : option string) : JSNumber :=
  match v with
  | None => Num 0
  | Some s => StringToNumber s
  end.

(** [useQueryPairs], applied to the result of [params.get("pairs")]:
    [Number.isFinite(n) && n >= 4 && n <= 24 ? n : 8]. *)
Definition useQueryPairs (raw : option string) : Q :=
  match Number raw with
  | Num n => if Qle_bool 4 n && Qle_bool n 24 then n else 8
  | _ => 8
  end.

(** [MEMORY_PAIR_OPTIONS.includes(numeric)]. *)
Definition includes (numeric : JSNumber) : bool :=
  match numeric with
  | Num n => existsb (fun o => Qeq_bool (inject_Z o) n) MEMORY_PAIR_OPTIONS
  | _ => false
  end.

(** The [parse] option of [usePairsParam]: [undefined] is [None]. *)
Definition parse (value : option string) : option Q :=
  match value with
  | None => None
  | Some EmptyString => None
  | Some s =>
      match StringToNumber s with
      | Num n => if includes (Num n) then Some n else None
      | _ => None
      end
  end.

(** [readValue] of [useSearchParamState] for [usePairsParam]:
    [parse(raw) ?? defaultValue] with [defaultValue: 8]. *)
Definition usePairsParam (raw : option string) : Q :=
  match parse raw with
  | Some n => n
  | None => 8
  end.
End Configuration.

(** The builtin conversion on strings of decimal digits, for the examples:
    ["7"] is [7].  Every other non-empty string is sent to [NaN] here,
    which is not what the builtin does for all of them (blanks, signs,
    fractions, exponents and hexadecimal literals are numbers too). *)
Fixpoint digits (s : string) (acc : Z) : option Z :=
  match s with
  | EmptyString => Some acc
  | String c s' =>
      let n := Z.of_nat (Ascii.nat_of_ascii c) in
      if (48 <=? n)%Z && (n <=? 57)%Z
      then digits s' (10 * acc + (n - 48))%Z
      else None
  end.

Definition decimal_literal (s : string) : JSNumber :=
  match digits s 0 with
  | Some z => Num (inject_Z z)
  | None => NaN
  end.


(** *** Vocabulary for the statements *)

(** The number of cards that are face-up and not resolved. *)
Definition open_count (d : list Card) : nat := length (List.filter is_open d).

(** [flip(index)] is ignored: the lock is held, or there is no card at
    [index], or the card there is face-up or resolved. *)
Definition rejects (s : Engine) (index : Z) : Prop :=
  locked s = true \/
  card_at (deck s) index = None \/
  exists card, card_at (deck s) index = Some card /\
    (flipped card = true \/ matched card = true).

(** [flip(index)] goes through, and [card] is the card it turns. *)
Definition accepts (s : Engine) (index : Z) (card : Card) : Prop :=
  locked s = false /\
  card_at (deck s) index = Some card /\
  flipped card = false /\ matched card = false.

(** A card as [reset] creates it. *)
Definition face_down (c : Card) : Prop :=
  flipped c = false /\ matched c = false.

(** The card a 350 ms timer leaves, and the card a 650 ms timer leaves. *)
Definition matched_up (c : Card) : Card := mkCard (id c) (emoji c) true true.
Definition hidden (c : Card) : Card := mkCard (id c) (emoji c) false false.

(** The state an accepted flip builds, before the effect on [deck]. *)
Definition flipped_state (now : Q) (index : Z) (card : Card) (s : Engine)
  : Engine :=
  let started := if truthy (startedAt s) then startedAt s else Some now in
  let d := <[Z.to_nat index := turn_up card]> (deck s) in
  match List.filter is_open d with
  | [a; b] =>
      mkEngine d (moves s + 1) true started (finishedAt s)
        (timers s ++ [resolution_timer now a b])
  | _ => mkEngine d (moves s) (locked s) started (finishedAt s) (timers s)
  end.

(** *** Sample runs

    [Math.random] answering [0] every time turns the seeded deck
    [0, 1, ..., 11] of six pairs into [1, 2, ..., 11, 0] (by ids): the two
    cards of the first token sit at indices 0 and 11, those of token [n]
    at indices [2n - 1] and [2n]. *)
Definition zeros : nat -> Q := fun _ => 0%Q.

(** A fresh deck of six pairs with the card at index 0 turned. *)
Definition sample_one_open : Engine :=
  step (Flip 2 0) (step (Reset 1 6 zeros) init).

(** The same with the card at index 2, of another token, turned as well:
    a 650 ms timer is outstanding. *)
Definition sample_pending : Engine := step (Flip 3 2) sample_one_open.


(** A pair is turned and Restart is pressed before its 350 ms timer fires;
    from then on every pair is turned while the timer of the pair before is
    still outstanding, so that each timer resolves the pair turned after
    its own.  The deck is complete when the timer of the fifth pair fires
    at 1600, with the timer of the sixth pair still outstanding. *)
Definition overlapping_run : list Event :=
  [Reset 1 6 zeros;
   Flip 50 1; Flip 100 2;
   Reset 150 6 zeros;
   Flip 200 1; Flip 250 2;
   Fire 450 0;
   Flip 500 3; Flip 550 4;
   Fire 600 0;
   Flip 700 5; Flip 750 6;
   Fire 900 0;
   Flip 950 7; Flip 1000 8;
   Fire 1100 0;
   Flip 1200 9; Flip 1250 10;
   Fire 1350 0;
   Flip 1400 0; Flip 1450 11;
   Fire 1600 0].

(** *** Sessions

    A session is what happens between two calls of [reset]. *)
Definition is_reset (e : Event) : bool :=
  match e with Reset _ _ _ => true | _ => false end.

(** The states of the runs in which [reset] is never called while a timer
    is outstanding. *)
Inductive Disciplined : Engine -> Prop :=
  | Disciplined_init : Disciplined init
  | Disciplined_step s e :
      Disciplined s -> valid_event e ->
      (is_reset e = true -> timers s = []) ->
      Disciplined (step e s).

(** The number of resolved cards. *)
Definition matched_count (d : list Card) : nat :=
  length (List.filter matched d).

(** Every resolved card has a resolved partner of the same token elsewhere
    in the deck. *)
Definition paired (d : list Card) : Prop :=
  forall i c, d !! i = Some c -> matched c = true ->
  exists j c', j <> i /\ d !! j = Some c' /\
    matched c' = true /\ emoji c' = emoji c.

(** A pair of equal tokens is turned and its 350 ms timer fires. *)
Definition one_pair_run : list Event :=
  [Reset 1 6 zeros; Flip 50 1; Flip 100 2; Fire 450 0].

(** The six pairs of the sample deck are turned one after the other, each
    timer firing before the next pair is turned. *)
Definition patient_run : list Event :=
  [Reset 1 6 zeros;
   Flip 100 1; Flip 200 2; Fire 550 0;
   Flip 600 3; Flip 700 4; Fire 1050 0;
   Flip 1100 5; Flip 1200 6; Fire 1550 0;
   Flip 1600 7; Flip 1700 8; Fire 2050 0;
   Flip 2100 9; Flip 2200 10; Fire 2550 0;
   Flip 2600 0; Flip 2700 11; Fire 3050 0].

(** A result of [Math.random()] for which
    [Math.floor(Math.random() * (i + 1))] is [j]: the fraction
    [j / (i + 1)]. *)
Definition draw (i j : nat) : Q := Z.of_nat j # Pos.of_succ_nat i.

(** ** The address and [useSearchParamState]

    The query part of the address is kept as the list of name-value tuples
    that [new URLSearchParams(window.location.search)] and
    [url.searchParams] hold, with the three operations the hook uses, as
    the URL standard defines them.  [window.history.pushState] and the
    comparison of the two relative addresses that guards it are outside
    the embedding: what is modelled is the query the address ends up
    with. *)

(** [params.get(key)]: the value of the first tuple named [key], or
    [null]. *)
Fixpoint params_get (key : string) (params : list (string * string))
  : option string :=
  match params with
  | [] => None
  | (k, v) :: rest =>
      if String.eqb k key then Some v else params_get key rest
  end.

(** [params.delete(key)]: every tuple named [key] goes. *)
Definition params_delete (key : string) (params : list (string * string))
  : list (string * string) :=
  List.filter (fun kv => negb (String.eqb (fst kv) key)) params.

(** [params.set(key, value)]: the first tuple named [key] gets the value
    and the other tuples of that name go; without such a tuple a new one is
    appended. *)
Fixpoint params_set (key value : string) (params : list (string * string))
  : list (string * string) :=
  match params with
  | [] => [(key, value)]
  | (k, v) :: rest =>
      if String.eqb k key
      then (key, value) :: params_delete key rest
      else (k, v) :: params_set key value rest
  end.

Section SearchParamState.
Context {T : Type}.
(** The arguments of [useSearchParamState]: the key and the options
    [defaultValue], [parse] and [serialize]; [same] is [===] on [T]. *)
Variables (key : string) (defaultValue : T)
  (parse_value : option string -> option T) (serialize : T -> string)
  (same : T -> T -> bool).

(** [readValue]: [parse(params.get(key)) ?? defaultValue]. *)
Definition readValue (params : list (string * string)) : T :=
  match parse_value (params_get key params) with
  | Some v => v
  | None => defaultValue
  end.

(** The query [updateValue] leaves in the address for the value
    [resolved]: the key is deleted for the default value and set
    otherwise. *)
Definition write_query (resolved : T) (params : list (string * string))
  : list (string * string) :=
  if same resolved defaultValue
  then params_delete key params
  else params_set key (serialize resolved) params.

(** [updateValue(next)] for a value [next], on the in-memory value and the
    query of the address. *)
Definition updateValue (next : T) (st : T * list (string * string))
  : T * list (string * string) :=
  (next, write_query next (snd st)).

(** The [popstate] listener, once the browser has moved to an address with
    the query [params]: [setValue(readValue())]. *)
Definition onPopState (params : list (string * string))
  (st : T * list (string * string)) : T * list (string * string) :=
  (readValue params, params).
End SearchParamState.

(** [type View = "dashboard" | "memory" | "zip"], and the string each value
    is. *)
Inductive View := dashboard | memory | zip.

Definition view_name (v : View) : string :=
  match v with
  | dashboard => "dashboard"
  | memory => "memory"
  | zip => "zip"
  end.

(** The [parse] option of [useViewParam]. *)
Definition parse_view (value : option string) : option View :=
  match value with
  | None => None
  | Some s =>
      if String.eqb s "dashboard" then Some dashboard
      else if String.eqb s "memory" then Some memory
      else if String.eqb s "zip" then Some zip
      else None
  end.

(** [useViewParam]: [useSearchParamState<View>("view", ...)], with
    [serialize: (value) => value]. *)
Definition view_read : list (string * string) -> View :=
  readValue "view" dashboard parse_view.

Definition view_update
  : View -> View * list (string * string) -> View * list (string * string) :=
  updateValue "view" dashboard view_name
    (fun a b => String.eqb (view_name a) (view_name b)).

(** [usePairsParam]: [useSearchParamState<MemoryPairOption>("pairs", ...)],
    for the two builtin conversions [Number(string)] and [String(number)]. *)
Definition pairs_read (StringToNumber : string -> JSNumber)
  : list (string * string) -> Q :=
  readValue "pairs" 8%Q (parse StringToNumber).

Definition pairs_update (NumberToString : Q -> string)
  : Q -> Q * list (string * string) -> Q * list (string * string) :=
  updateValue "pairs" 8%Q NumberToString Qeq_bool.

(** The builtin [String(n)] on integers, for the examples: the decimal
    digits of [n].  A number that is not an integer is printed here through
    its integer part, which is not what the builtin does. *)
Definition decimal_string (n : Q) : string :=
  NilZero.string_of_int (Z.to_int (Qfloor n)).

(** ** What [MemoryMatch] renders for a card

    The three attributes of the card button that are the same in every
    variant of the component: its text
    ([c.flipped || c.matched ? c.emoji : "?"]), its [aria-label]
    ([c.flipped ? c.emoji : "Hidden card"]) and [disabled]
    ([c.matched]). *)
Definition card_text (c : Card) : string :=
  if flipped c || matched c then emoji c else "?"%string.

Definition aria_label (c : Card) : string :=
  if flipped c then emoji c else "Hidden card"%string.

Definition disabled (c : Card) : bool := matched c.

(** A card that is face-down and not resolved: [!c.flipped && !c.matched],
    the cards [flip] accepts. *)
Definition is_hidden (c : Card) : bool := negb (flipped c) && negb (matched c).

(** The clock readings of a run never go back, starting from [last]. *)
Fixpoint clock_ordered (last : Q) (tr : list Event) : bool :=
  match tr with
  | [] => true
  | e :: tr' => Qle_bool last (time_of e) && clock_ordered (time_of e) tr'
  end.

(** The cards at indices 1 and 2 of the sample deck, which carry the same
    token, are turned: a 350 ms timer is outstanding. *)
Definition sample_pending_equal : Engine :=
  step (Flip 3 2) (step (Flip 2 1) (step (Reset 1 6 zeros) init)).

(** A pair of equal tokens is turned (its 350 ms timer is due at 450),
    Restart is pressed at 150, and two cards of different tokens, at
    indices 0 and 2 of the new deck, are turned at 200 and 250: their
    650 ms timer is due at 900, after the one left over. *)
Definition crossed_run_match : list Event :=
  [Reset 1 6 zeros; Flip 50 1; Flip 100 2;
   Reset 150 6 zeros; Flip 200 0; Flip 250 2].

(** Two cards of different tokens are turned (their 650 ms timer is due at
    750), Restart is pressed at 150, and the two cards of one token, at
    indices 1 and 2 of the new deck, are turned at 450 and 500: their
    350 ms timer is due at 850, after the one left over. *)
Definition crossed_run_hide : list Event :=
  [Reset 1 6 zeros; Flip 50 0; Flip 100 2;
   Reset 150 6 zeros; Flip 450 1; Flip 500 2].

(** * Verification *)

(** ** Properties of [shuffle] *)

Lemma pick_le (i : nat) (r : Q) :
  (0 <= r)%Q -> (r < 1)%Q -> pick i r <= i.
Proof.
  intros H0 H1. unfold pick.
  set (m := (Z.of_nat i + 1)%Z).
  assert (Hm : (0 < inject_Z m)%Q).
  { replace 0%Q with (inject_Z 0) by reflexivity. rewrite <- Zlt_Qlt. lia. }
  assert (Hlt : (r * inject_Z m < inject_Z m)%Q).
  { pose proof (Qmult_lt_compat_r r 1 (inject_Z m) Hm H1) as H.
    by rewrite Qmult_1_l in H. }
  assert (Hfl : (Qfloor (r * inject_Z m) < m)%Z).
  { rewrite Zlt_Qlt. eapply Qle_lt_trans; [apply Qfloor_le | exact Hlt]. }
  lia.
Qed.

Section ShuffleFacts.
Context {T : Type}.
Implicit Types (a l : list T) (h : list (list T)) (p : nat).

Lemma swap_length a i j : length (swap a i j) = length a.
Proof.
  unfold swap. destruct (a !! i), (a !! j); try reflexivity.
  by rewrite !length_insert.
Qed.

Lemma insert_head_Permutation l j x y :
  l !! j = Some y -> y :: <[j := x]> l ≡ₚ x :: l.
Proof.
  revert j. induction l as [|z l IH]; intros [|j] Hj; simplify_eq/=.
  - apply perm_swap.
  - rewrite (perm_swap z y). rewrite (IH _ Hj). apply perm_swap.
Qed.

Lemma swap_Permutation a i j : swap a i j ≡ₚ a.
Proof.
  unfold swap.
  destruct (a !! i) as [x|] eqn:Hi; [|reflexivity].
  destruct (a !! j) as [y|] eqn:Hj; [|reflexivity].
  revert i j Hi Hj. induction a as [|z a IH]; intros [|i] [|j] Hi Hj;
    simplify_eq/=.
  - reflexivity.
  - by apply insert_head_Permutation.
  - by apply insert_head_Permutation.
  - f_equiv. by apply IH.
Qed.

Lemma shuffle_loop_Permutation rnd k i a : shuffle_loop rnd k i a ≡ₚ a.
Proof.
  revert k a. induction i as [|i IH]; intros k a; simpl; [reflexivity|].
  rewrite IH. apply swap_Permutation.
Qed.

Lemma shuffle_Permutation rnd a : shuffle rnd a ≡ₚ a.
Proof. apply shuffle_loop_Permutation. Qed.

Lemma shuffle_length rnd a : length (shuffle rnd a) = length a.
Proof. apply Permutation_length, shuffle_Permutation. Qed.

(** Under the contract of [Math.random] every swap of the loop stays
    inside the array, so the embedding of [swap] is exact on it. *)
Lemma swap_in_range rnd k i a :
  valid_random rnd -> i < length a ->
  exists x y, a !! i = Some x /\ a !! pick i (rnd k) = Some y /\
    swap a i (pick i (rnd k)) = <[pick i (rnd k) := x]> (<[i := y]> a).
Proof.
  intros Hr Hi. destruct (Hr k) as [H0 H1].
  pose proof (pick_le i (rnd k) H0 H1) as Hj.
  destruct (lookup_lt_is_Some_2 a i Hi) as [x Hx].
  destruct (lookup_lt_is_Some_2 a (pick i (rnd k)) ltac:(lia)) as [y Hy].
  exists x, y. unfold swap. by rewrite Hx, Hy.
Qed.

Lemma shuffle_loop_checked_total rnd k i a :
  valid_random rnd -> i < length a ->
  shuffle_loop_checked rnd k i a = Some (shuffle_loop rnd k i a).
Proof.
  intros Hr. revert k a. induction i as [|i IH]; intros k a Hi; [done|].
  destruct (swap_in_range rnd k (S i) a Hr Hi) as (x & y & Hx & Hy & Hsw).
  cbn [shuffle_loop_checked shuffle_loop]. unfold swap_checked.
  rewrite Hx, Hy, <- Hsw. apply IH. rewrite swap_length. lia.
Qed.

(** Under the contract of [Math.random] no access of [shuffle] leaves the
    array: the checked loop succeeds, with the result of the plain one. *)
Lemma shuffle_checked_total rnd a :
  valid_random rnd -> shuffle_checked rnd a = Some (shuffle rnd a).
Proof.
  intros Hr. unfold shuffle_checked, shuffle.
  destruct a as [|x a]; [done|].
  apply shuffle_loop_checked_total; [done | simpl; lia].
Qed.

Lemma alter_at_insert h p l (f : list T -> list T) :
  h !! p = Some l -> alter f p h = <[p := f l]> h.
Proof.
  intros Ha. apply list_eq. intros n.
  pose proof (lookup_lt_Some _ _ _ Ha).
  rewrite list_lookup_alter, list_lookup_insert, Ha.
  destruct (decide (p = n)) as [->|Hne].
  - by rewrite decide_True.
  - rewrite decide_False; [done | by intros [? _]].
Qed.

Lemma shuffle_loop_at_insert rnd k i p h l :
  h !! p = Some l ->
  shuffle_loop_at rnd k i p h = <[p := shuffle_loop rnd k i l]> h.
Proof.
  revert k h l. induction i as [|i IH]; intros k h l Ha; simpl.
  - by rewrite list_insert_id.
  - rewrite (alter_at_insert _ _ _ _ Ha).
    erewrite IH.
    + by rewrite list_insert_insert_eq.
    + apply list_lookup_insert_eq. by eapply lookup_lt_Some.
Qed.

Lemma shuffle_at_spec rnd arr h l :
  h !! arr = Some l ->
  shuffle_at rnd arr h = Some (length h, h ++ [shuffle rnd l]).
Proof.
  intros Ha. unfold shuffle_at. rewrite Ha. do 2 f_equal.
  erewrite shuffle_loop_at_insert.
  - rewrite insert_app_r_alt by lia. by rewrite Nat.sub_diag.
  - rewrite lookup_app_r by lia. by rewrite Nat.sub_diag.
Qed.
End ShuffleFacts.

(** C10.  For every array [l] stored at address [arr], [shuffle] returns a
    new array at an address of its own that holds the same elements with
    the same multiplicities (a permutation of [l], of the same length), and
    the array at [arr], like every other array of the store, is left as it
    was.  No array access of the loop falls outside the array. *)
Theorem shuffle_permutes_a_copy {T} (rnd : nat -> Q) (h : list (list T))
    (arr : nat) (l : list T) :
  valid_random rnd ->
  h !! arr = Some l ->
  exists a h',
    shuffle_at rnd arr h = Some (a, h') /\
    a <> arr /\
    h' !! a = Some (shuffle rnd l) /\
    shuffle_checked rnd l = Some (shuffle rnd l) /\
    length (shuffle rnd l) = length l /\
    shuffle rnd l ≡ₚ l /\
    h' !! arr = Some l /\
    (forall p, p < length h -> h' !! p = h !! p).
Proof.
  intros Hr Harr. pose proof (lookup_lt_Some _ _ _ Harr) as Hlt.
  exists (length h), (h ++ [shuffle rnd l]).
  split; [by apply shuffle_at_spec|]. split; [lia|]. split; [|split].
  2: by apply shuffle_checked_total.
  2: repeat split.
  - rewrite lookup_app_r by lia. by rewrite Nat.sub_diag.
  - apply shuffle_length.
  - apply shuffle_Permutation.
  - by rewrite lookup_app_l.
  - intros p Hp. by rewrite lookup_app_l.
Qed.

Lemma shuffle_permutes_a_copy_witness :
  exists a h',
    shuffle_at (fun _ => 1 # 2) 1 [[7]; [1; 2; 3; 4]] = Some (a, h') /\
    a <> 1 /\
    h' !! a = Some (shuffle (fun _ => 1 # 2) [1; 2; 3; 4]) /\
    shuffle_checked (fun _ => 1 # 2) [1; 2; 3; 4] =
      Some (shuffle (fun _ => 1 # 2) [1; 2; 3; 4]) /\
    length (shuffle (fun _ => 1 # 2) [1; 2; 3; 4]) = length [1; 2; 3; 4] /\
    shuffle (fun _ => 1 # 2) [1; 2; 3; 4] ≡ₚ [1; 2; 3; 4] /\
    h' !! 1 = Some [1; 2; 3; 4] /\
    (forall p, p < length [[7]; [1; 2; 3; 4]] ->
       h' !! p = [[7]; [1; 2; 3; 4]] !! p).
Proof.
  apply (shuffle_permutes_a_copy (fun _ => 1 # 2) [[7]; [1; 2; 3; 4]] 1
           [1; 2; 3; 4]).
  - intros k. split; [discriminate | reflexivity].
  - reflexivity.
Defined.

(** ** The match engine: how one event changes the state *)

Lemma deck_effect_fields now s :
  deck (deck_effect now s) = deck s /\
  moves (deck_effect now s) = moves s /\
  locked (deck_effect now s) = locked s /\
  startedAt (deck_effect now s) = startedAt s /\
  timers (deck_effect now s) = timers s.
Proof. unfold deck_effect. by destruct (complete (deck s)). Qed.

Lemma deck_effect_incomplete now s :
  complete (deck s) = false -> deck_effect now s = s.
Proof. unfold deck_effect. by intros ->. Qed.

Lemma complete_all_matched d c :
  complete d = true -> c ∈ d -> matched c = true.
Proof.
  unfold complete. intros [_ Hall]%andb_prop Hc.
  rewrite forallb_forall in Hall. apply Hall. by apply list_elem_of_In.
Qed.

Lemma incomplete_of_unmatched d c :
  c ∈ d -> matched c = false -> complete d = false.
Proof.
  intros Hc Hm. destruct (complete d) eqn:E; [|done].
  by rewrite (complete_all_matched _ _ E Hc) in Hm.
Qed.

Lemma card_at_lookup d index card :
  card_at d index = Some card ->
  (0 <= index)%Z /\ d !! Z.to_nat index = Some card.
Proof.
  unfold card_at. destruct (index <? 0)%Z eqn:E; [done|].
  intros H. split; [lia | done].
Qed.

Lemma flip_of_rejects now index s :
  rejects s index -> flip now index s = (s, false).
Proof.
  unfold flip. intros [Hl | [Hn | (card & Hc & Hf)]].
  - by rewrite Hl.
  - rewrite Hn. by destruct (locked s).
  - rewrite Hc. destruct (locked s); [done|].
    by destruct Hf as [-> | ->]; rewrite ?orb_true_r.
Qed.

Lemma rejects_or_accepts s index :
  rejects s index \/ exists card, accepts s index card.
Proof.
  unfold rejects, accepts.
  destruct (locked s); [by left; left|].
  destruct (card_at (deck s) index) as [card|]; [|by left; right; left].
  destruct (flipped card) eqn:Ef; [left; right; right; eauto|].
  destruct (matched card) eqn:Em; [left; right; right; eauto|].
  right. by exists card.
Qed.

Lemma rejects_not_accepts s index card :
  rejects s index -> accepts s index card -> False.
Proof.
  intros [Hl | [Hn | (c & Hc & Hf)]] (Hu & Hat & Hf' & Hm'); [congruence.. |].
  assert (c = card) as -> by congruence. destruct Hf; congruence.
Qed.

Lemma flip_of_accepts now index s card :
  accepts s index card ->
  flip now index s = (flipped_state now index card s, true).
Proof.
  intros (Hu & Hat & Hf & Hm). unfold flip, flipped_state.
  rewrite Hu, Hat, Hf, Hm. simpl.
  by destruct (List.filter is_open _) as [|a [|b [|? ?]]].
Qed.

Lemma flipped_state_deck now index card s :
  deck (flipped_state now index card s) =
  <[Z.to_nat index := turn_up card]> (deck s).
Proof.
  unfold flipped_state.
  by destruct (List.filter is_open _) as [|a [|b [|? ?]]].
Qed.

Lemma flipped_state_incomplete now index card s :
  accepts s index card ->
  complete (deck (flipped_state now index card s)) = false.
Proof.
  intros (_ & Hat & _ & Hm). apply card_at_lookup in Hat as [_ Hat].
  rewrite flipped_state_deck.
  apply (incomplete_of_unmatched _ (turn_up card)); [|done].
  apply list_elem_of_lookup. exists (Z.to_nat index).
  apply list_lookup_insert_eq. by eapply lookup_lt_Some.
Qed.

Lemma step_flip_rejects now index s :
  rejects s index -> step (Flip now index) s = s.
Proof. intros H. unfold step. simpl. by rewrite flip_of_rejects. Qed.

Lemma step_flip_accepts now index s card :
  accepts s index card ->
  step (Flip now index) s = flipped_state now index card s.
Proof.
  intros H. unfold step. simpl. rewrite (flip_of_accepts _ _ _ _ H).
  apply deck_effect_incomplete. by apply flipped_state_incomplete.
Qed.

Lemma step_fire_none now k s :
  timers s !! k = None -> step (Fire now k) s = s.
Proof. intros H. unfold step, handle, fire. by rewrite H. Qed.

Lemma step_fire_some now k s t :
  timers s !! k = Some t ->
  step (Fire now k) s =
  deck_effect now
    (mkEngine (resolve (action t) <$> deck s) (moves s) false
       (startedAt s) (finishedAt s) (delete k (timers s))).
Proof. intros H. unfold step, handle, fire. by rewrite H. Qed.

(** *** Fresh decks *)

Lemma Forall_concat_imap {A B} (P : B -> Prop) (f : nat -> A -> list B) l :
  (forall i x, Forall P (f i x)) -> Forall P (List.concat (imap f l)).
Proof.
  revert f. induction l as [|x l IH]; intros f Hf; simpl; [constructor|].
  apply Forall_app. split; [apply Hf|]. apply IH. intros i y. apply Hf.
Qed.

Lemma seed_face_down chosen : Forall face_down (seed chosen).
Proof.
  apply Forall_concat_imap. intros i e. by repeat constructor.
Qed.

Lemma generate_face_down pairs rnd : Forall face_down (generate pairs rnd).
Proof.
  unfold generate. rewrite shuffle_Permutation. apply seed_face_down.
Qed.

Lemma face_down_no_open d : Forall face_down d -> List.filter is_open d = [].
Proof.
  induction 1 as [|c d [Hf Hm] _ IH]; [done|].
  simpl. unfold is_open at 1. by rewrite Hf.
Qed.

Lemma face_down_incomplete d : Forall face_down d -> complete d = false.
Proof.
  intros [|c d' [_ Hm] _]; [reflexivity|].
  apply (incomplete_of_unmatched _ c); [apply list_elem_of_here | done].
Qed.

Lemma step_reset now pairs rnd s :
  step (Reset now pairs rnd) s =
  mkEngine (generate pairs rnd) 0 false None None (timers s).
Proof.
  unfold step, handle, reset. apply deck_effect_incomplete.
  apply face_down_incomplete, generate_face_down.
Qed.

(** ** The deck generator: well-formed decks *)

Lemma dealt_Permutation palette p d d' :
  d ≡ₚ d' -> dealt palette p d' -> dealt palette p d.
Proof.
  intros Hp (Hlen & Hcnt & Htok & Hid & Hnew). unfold dealt.
  rewrite !Hp. repeat split; try done.
  eapply Forall_impl; [exact Hcnt|]. intros e He. simpl in *. by rewrite Hp.
Qed.

Lemma seed_supported p :
  p ∈ MEMORY_PAIR_OPTIONS ->
  dealt emojis (Z.to_nat p) (seed (slice0 emojis (inject_Z p))).
Proof.
  unfold MEMORY_PAIR_OPTIONS. intros Hp.
  repeat (apply elem_of_cons in Hp as [->|Hp]);
    [apply (bool_decide_unpack _); vm_compute; reflexivity.. |].
  by apply elem_of_nil in Hp.
Qed.

(** C3.  For every supported pair count [p], [reset] builds a deck of
    exactly [2p] cards in which each of the first [p] tokens of the palette
    is on exactly two cards (and no other token is used), the ids are
    pairwise distinct, every card is face-down and unmatched; no access of
    the shuffle falls outside the deck, and the palette array is left as it
    was. *)
Theorem generate_supported (p : Z) (rnd : nat -> Q) (pal : nat)
    (hs : list (list string)) (hc : list (list Card)) :
  p ∈ MEMORY_PAIR_OPTIONS ->
  valid_random rnd ->
  hs !! pal = Some emojis ->
  (forall now s,
     deck (step (Reset now (inject_Z p) rnd) s) = generate (inject_Z p) rnd) /\
  dealt emojis (Z.to_nat p) (generate (inject_Z p) rnd) /\
  shuffle_checked rnd (seed (slice0 emojis (inject_Z p))) =
    Some (generate (inject_Z p) rnd) /\
  exists a hs' hc',
    generate_at (inject_Z p) rnd pal hs hc = Some (a, hs', hc') /\
    hc' !! a = Some (generate (inject_Z p) rnd) /\
    hs' !! pal = Some emojis.
Proof.
  intros Hp Hr Hpal. pose proof (lookup_lt_Some _ _ _ Hpal) as Hlt.
  split; [intros now s; by rewrite step_reset|]. split.
  { eapply dealt_Permutation;
      [apply shuffle_Permutation | by apply seed_supported]. }
  split; [by apply shuffle_checked_total|].
  unfold generate_at. rewrite Hpal.
  erewrite shuffle_at_spec;
    [| rewrite lookup_app_r by lia; by rewrite Nat.sub_diag].
  eexists _, _, _. split; [reflexivity|]. split.
  - rewrite lookup_app_r by lia. by rewrite Nat.sub_diag.
  - by rewrite lookup_app_l.
Qed.

Lemma generate_supported_witness :
  (forall now s,
     deck (step (Reset now (inject_Z 6) (fun _ => 1 # 2)) s) =
       generate (inject_Z 6) (fun _ => 1 # 2)) /\
  dealt emojis (Z.to_nat 6) (generate (inject_Z 6) (fun _ => 1 # 2)) /\
  shuffle_checked (fun _ => 1 # 2) (seed (slice0 emojis (inject_Z 6))) =
    Some (generate (inject_Z 6) (fun _ => 1 # 2)) /\
  exists a hs' hc',
    generate_at (inject_Z 6) (fun _ => 1 # 2) 0 [emojis] [] =
      Some (a, hs', hc') /\
    hc' !! a = Some (generate (inject_Z 6) (fun _ => 1 # 2)) /\
    hs' !! 0 = Some emojis.
Proof.
  apply (generate_supported 6 (fun _ => 1 # 2) 0 [emojis] []).
  - unfold MEMORY_PAIR_OPTIONS. apply elem_of_cons. by left.
  - intros k. split; [discriminate | reflexivity].
  - reflexivity.
Defined.

(** *** Counting the open cards *)

Lemma open_count_insert d i c c' :
  d !! i = Some c -> is_open c = false -> is_open c' = true ->
  open_count (<[i := c']> d) = S (open_count d).
Proof.
  unfold open_count. revert i.
  induction d as [|x d IH]; intros [|i] Hi Hc Hc'; simplify_eq/=.
  - by rewrite Hc, Hc'.
  - destruct (is_open x); simpl; by rewrite (IH i).
Qed.

Lemma is_open_resolve r c : is_open (resolve r c) = false.
Proof.
  unfold resolve. destruct (is_open c) eqn:E; [|done].
  destruct r; unfold is_open; simpl; [apply andb_false_r | done].
Qed.

Lemma no_open_after_resolve r d :
  List.filter is_open (resolve r <$> d) = [].
Proof.
  induction d as [|c d IH]; [done|].
  rewrite fmap_cons. simpl. by rewrite is_open_resolve.
Qed.

Lemma resolve_not_open r c : is_open c = false -> resolve r c = c.
Proof. unfold resolve. by intros ->. Qed.

Lemma resolve_no_open r d :
  List.filter is_open d = [] -> resolve r <$> d = d.
Proof.
  induction d as [|c d IH]; [done|]. intros H. simpl in H.
  destruct (is_open c) eqn:E; [done|].
  by rewrite fmap_cons, (resolve_not_open _ _ E), (IH H).
Qed.

Lemma resolve_open_matched a :
  is_open a = true -> resolve MarkMatched a = matched_up a.
Proof.
  unfold resolve, matched_up. intros E. rewrite E.
  apply andb_prop in E as [-> _]. done.
Qed.

Lemma resolve_open_hidden a :
  is_open a = true -> resolve HideAgain a = hidden a.
Proof.
  unfold resolve, hidden. intros E. rewrite E.
  apply andb_prop in E as [_ Hm]. apply negb_true_iff in Hm. by rewrite Hm.
Qed.

(** Where the two elements of a filtered pair sit in the list. *)
Lemma filter_nil_lookup {A} (P : A -> bool) d k c :
  List.filter P d = [] -> d !! k = Some c -> P c = false.
Proof.
  revert k. induction d as [|x d IH]; intros [|k] Hf Hk; simplify_eq/=.
  - destruct (P c); [done | done].
  - destruct (P x); [done|]. by eapply IH.
Qed.

Lemma filter_one_lookup {A} (P : A -> bool) d a :
  List.filter P d = [a] ->
  exists i, d !! i = Some a /\ P a = true /\
    forall k c, d !! k = Some c -> k <> i -> P c = false.
Proof.
  induction d as [|x d IH]; [done|]. simpl.
  destruct (P x) eqn:E; intros Hf.
  - injection Hf as -> Hnil. exists 0. repeat split; [done|].
    intros [|k] c Hk Hne; [done|]. simpl in Hk. by eapply filter_nil_lookup.
  - destruct (IH Hf) as (i & Hi & Ha & Hrest). exists (S i).
    repeat split; [done..|].
    intros [|k] c Hk Hne; simplify_eq/=; [done|].
    apply (Hrest k c Hk). lia.
Qed.

Lemma filter_two_lookup {A} (P : A -> bool) d a b :
  List.filter P d = [a; b] ->
  exists i j, i < j /\ d !! i = Some a /\ d !! j = Some b /\
    P a = true /\ P b = true /\
    forall k c, d !! k = Some c -> k <> i -> k <> j -> P c = false.
Proof.
  induction d as [|x d IH]; [done|]. simpl.
  destruct (P x) eqn:E; intros Hf.
  - injection Hf as -> Hone.
    destruct (filter_one_lookup _ _ _ Hone) as (j & Hj & Hb & Hrest).
    exists 0, (S j). repeat split; [lia | done..|].
    intros [|k] c Hk Hi Hne; [done|]. simpl in Hk.
    apply (Hrest k c Hk). lia.
  - destruct (IH Hf) as (i & j & Hij & Hi & Hj & Ha & Hb & Hrest).
    exists (S i), (S j). repeat split; [lia | done..|].
    intros [|k] c Hk Hi' Hj'; simplify_eq/=; [done|].
    apply (Hrest k c Hk); lia.
Qed.

(** The two shapes of the state after an accepted flip. *)
Lemma flipped_state_cases now index card s :
  let d := <[Z.to_nat index := turn_up card]> (deck s) in
  let started := if truthy (startedAt s) then startedAt s else Some now in
  (exists a b, List.filter is_open d = [a; b] /\
     flipped_state now index card s =
       mkEngine d (moves s + 1) true started (finishedAt s)
         (timers s ++ [resolution_timer now a b])) \/
  (open_count d <> 2 /\
     flipped_state now index card s =
       mkEngine d (moves s) (locked s) started (finishedAt s) (timers s)).
Proof.
  unfold flipped_state, open_count. simpl.
  destruct (List.filter is_open _) as [|a [|b [|? ?]]] eqn:E;
    [right; split; [simpl; lia | done] ..
    | left; eauto
    | right; split; [simpl; lia | done]].
Qed.

Lemma open_count_flipped now index card s :
  accepts s index card ->
  open_count (deck (flipped_state now index card s)) = S (open_count (deck s)).
Proof.
  intros (_ & Hat & Hf & Hm). apply card_at_lookup in Hat as [_ Hat].
  rewrite flipped_state_deck. apply (open_count_insert _ _ card); [done|..].
  - unfold is_open. by rewrite Hf.
  - unfold is_open, turn_up. simpl. by rewrite Hm.
Qed.

(** ** Invariants of the reachable states *)

(** While the lock is free at most one card is open; at most two are open
    at any time. *)
Lemma lock_discipline s :
  Reachable s ->
  open_count (deck s) <= 2 /\ (locked s = false -> open_count (deck s) <= 1).
Proof.
  induction 1 as [|s e Hs [IH2 IH1] Hv]; [simpl; unfold open_count; simpl; lia|].
  destruct e as [now index | now k | now pairs rnd].
  - destruct (rejects_or_accepts s index) as [Hr | [card Ha]].
    + by rewrite step_flip_rejects.
    + rewrite (step_flip_accepts _ _ _ _ Ha).
      pose proof (open_count_flipped now index card s Ha) as Hc.
      assert (Hu : locked s = false) by apply Ha. specialize (IH1 Hu).
      split; [lia|].
      destruct (flipped_state_cases now index card s)
        as [(a & b & _ & ->) | [Hne Heq]]; [done|].
      rewrite flipped_state_deck in Hc. rewrite Heq in *. simpl in *. lia.
  - destruct (timers s !! k) as [t|] eqn:Ht.
    + rewrite (step_fire_some _ _ _ _ Ht).
      destruct (deck_effect_fields now
        (mkEngine (resolve (action t) <$> deck s) (moves s) false
           (startedAt s) (finishedAt s) (delete k (timers s))))
        as (-> & _ & _ & _ & _).
      simpl. unfold open_count. rewrite no_open_after_resolve. simpl. lia.
    + by rewrite step_fire_none.
  - rewrite step_reset. simpl. unfold open_count.
    rewrite (face_down_no_open _ (generate_face_down pairs rnd)). simpl. lia.
Qed.

Lemma Reachable_run tr s :
  Forall valid_event tr -> Reachable s -> Reachable (run tr s).
Proof.
  intros Htr. revert s. induction Htr as [|e tr He _ IH]; intros s Hs; [done|].
  simpl. apply IH. by constructor.
Qed.

Ltac valid_event_tac :=
  split; [reflexivity
         | first [exact I | intros ?; split; [discriminate | reflexivity]]].

(** C4.  In every state reachable by flips, timer firings and resets, at
    most two cards are face-up and not resolved. *)
Theorem at_most_two_open (s : Engine) :
  Reachable s -> open_count (deck s) <= 2.
Proof. intros Hs. apply (lock_discipline s Hs). Qed.

Lemma at_most_two_open_witness :
  open_count
    (deck (step (Flip 3 2) (step (Flip 2 0)
       (step (Reset 1 6 (fun _ => 1 # 2)) init)))) <= 2.
Proof.
  apply at_most_two_open.
  repeat (apply Reachable_step; [| valid_event_tac]).
  apply Reachable_init.
Defined.

(** C9.  In every reachable state a card whose [matched] flag is set also
    has its [flipped] flag set. *)
Theorem matched_cards_stay_up (s : Engine) :
  Reachable s ->
  Forall (fun c => matched c = true -> flipped c = true) (deck s).
Proof.
  induction 1 as [|s e Hs IH Hv]; [constructor|].
  destruct e as [now index | now k | now pairs rnd].
  - destruct (rejects_or_accepts s index) as [Hr | [card Ha]].
    + by rewrite step_flip_rejects.
    + rewrite (step_flip_accepts _ _ _ _ Ha), flipped_state_deck.
      by apply Forall_insert.
  - destruct (timers s !! k) as [t|] eqn:Ht.
    + rewrite (step_fire_some _ _ _ _ Ht).
      destruct (deck_effect_fields now
        (mkEngine (resolve (action t) <$> deck s) (moves s) false
           (startedAt s) (finishedAt s) (delete k (timers s))))
        as (-> & _ & _ & _ & _).
      simpl. apply Forall_fmap. eapply Forall_impl; [exact IH|].
      intros c Hc. simpl. unfold resolve.
      destruct (is_open c) eqn:E; [|done].
      apply andb_prop in E as [Hf Hm]. apply negb_true_iff in Hm.
      destruct (action t); simpl; congruence.
    + by rewrite step_fire_none.
  - rewrite step_reset. simpl.
    eapply Forall_impl; [apply generate_face_down|].
    intros c [_ Hm]. congruence.
Qed.

Lemma matched_cards_stay_up_witness :
  Forall (fun c => matched c = true -> flipped c = true)
    (deck (step (Fire 450 0) (step (Flip 100 2) (step (Flip 50 1)
       (step (Reset 1 6 zeros) init))))).
Proof.
  apply matched_cards_stay_up.
  repeat (apply Reachable_step; [| valid_event_tac]).
  apply Reachable_init.
Defined.

(** The newest outstanding timer is the one scheduled for the two open
    cards. *)
Lemma pending_pair_timer s :
  Reachable s ->
  forall a b, List.filter is_open (deck s) = [a; b] ->
  locked s = true /\
  exists ts t0, timers s = ts ++ [resolution_timer t0 a b].
Proof.
  induction 1 as [|s e Hs IH Hv]; [done|]. intros a b.
  destruct e as [now index | now k | now pairs rnd].
  - destruct (rejects_or_accepts s index) as [Hr | [card Ha]].
    + rewrite step_flip_rejects by done. apply IH.
    + rewrite (step_flip_accepts _ _ _ _ Ha).
      destruct (flipped_state_cases now index card s)
        as [(a' & b' & Hf & ->) | [Hne ->]]; simpl.
      * rewrite Hf. intros [= <- <-]. split; [done|]. eauto.
      * intros Hf. unfold open_count in Hne. by rewrite Hf in Hne.
  - destruct (timers s !! k) as [t|] eqn:Ht.
    + rewrite (step_fire_some _ _ _ _ Ht).
      destruct (deck_effect_fields now
        (mkEngine (resolve (action t) <$> deck s) (moves s) false
           (startedAt s) (finishedAt s) (delete k (timers s))))
        as (-> & _ & _ & _ & _).
      simpl. by rewrite no_open_after_resolve.
    + rewrite step_fire_none by done. apply IH.
  - rewrite step_reset. simpl.
    by rewrite (face_down_no_open _ (generate_face_down pairs rnd)).
Qed.

Lemma resolution_timer_equal t0 a b :
  emoji a = emoji b ->
  resolution_timer t0 a b = mkTimer 350 (t0 + 350) MarkMatched.
Proof.
  intros E. unfold resolution_timer.
  by rewrite (proj2 (String.eqb_eq _ _) E).
Qed.

Lemma resolution_timer_differ t0 a b :
  emoji a <> emoji b ->
  resolution_timer t0 a b = mkTimer 650 (t0 + 650) HideAgain.
Proof.
  intros E. unfold resolution_timer.
  by rewrite (proj2 (String.eqb_neq _ _) E).
Qed.

(** What the firing of a timer with callback [r] does. *)
Lemma step_fire_fields now k s t :
  timers s !! k = Some t ->
  deck (step (Fire now k) s) = resolve (action t) <$> deck s /\
  moves (step (Fire now k) s) = moves s /\
  locked (step (Fire now k) s) = false /\
  startedAt (step (Fire now k) s) = startedAt s /\
  timers (step (Fire now k) s) = delete k (timers s).
Proof.
  intros Ht. rewrite (step_fire_some _ _ _ _ Ht).
  destruct (deck_effect_fields now
    (mkEngine (resolve (action t) <$> deck s) (moves s) false
       (startedAt s) (finishedAt s) (delete k (timers s))))
    as (-> & -> & -> & -> & ->).
  done.
Qed.

Lemma sample_one_open_reachable : Reachable sample_one_open.
Proof.
  unfold sample_one_open.
  repeat (apply Reachable_step; [| valid_event_tac]). apply Reachable_init.
Qed.

Lemma sample_pending_reachable : Reachable sample_pending.
Proof.
  unfold sample_pending.
  apply Reachable_step; [apply sample_one_open_reachable | valid_event_tac].
Qed.

(** C5.  The move counter goes up by exactly one on a flip that brings the
    number of open cards to two; it is unchanged by a flip that opens a
    first card only, by every rejected flip (lock held, no card at the
    index, card already face-up or already resolved), and by the firing of
    a resolution timer. *)
Theorem moves_count_pair_reveals (s : Engine) (now : Q) (index : Z) (k : nat) :
  (forall card, accepts s index card ->
     open_count (deck (step (Flip now index) s)) = 2 ->
     moves (step (Flip now index) s) = moves s + 1) /\
  (forall card, accepts s index card ->
     open_count (deck (step (Flip now index) s)) = 1 ->
     moves (step (Flip now index) s) = moves s) /\
  (rejects s index -> moves (step (Flip now index) s) = moves s) /\
  moves (step (Fire now k) s) = moves s.
Proof.
  repeat split.
  - intros card Ha. rewrite (step_flip_accepts _ _ _ _ Ha).
    destruct (flipped_state_cases now index card s)
      as [(a & b & Hf & ->) | [Hne Heq]]; [done|].
    rewrite flipped_state_deck. intros Hc. by rewrite Hc in Hne.
  - intros card Ha. rewrite (step_flip_accepts _ _ _ _ Ha).
    destruct (flipped_state_cases now index card s)
      as [(a & b & Hf & Heq) | [Hne ->]]; [|done].
    rewrite flipped_state_deck. unfold open_count. by rewrite Hf.
  - intros Hr. by rewrite step_flip_rejects.
  - destruct (timers s !! k) as [t|] eqn:Ht.
    + by destruct (step_fire_fields now _ _ _ Ht) as (_ & -> & _).
    + by rewrite step_fire_none.
Qed.

Lemma moves_count_pair_reveals_witness :
  moves (step (Flip 3 2) sample_one_open) = moves sample_one_open + 1 /\
  moves (step (Flip 2 0) (step (Reset 1 6 zeros) init)) =
    moves (step (Reset 1 6 zeros) init) /\
  moves (step (Flip 4 5) sample_pending) = moves sample_pending.
Proof.
  split; [|split].
  - apply (proj1 (moves_count_pair_reveals sample_one_open 3 2 0)
             (mkCard 3 "🎮" false false)).
    + repeat split; vm_compute; reflexivity.
    + vm_compute. reflexivity.
  - apply (proj1 (proj2 (moves_count_pair_reveals
                           (step (Reset 1 6 zeros) init) 2 0 0))
             (mkCard 1 "🍕" false false)).
    + repeat split; vm_compute; reflexivity.
    + vm_compute. reflexivity.
  - apply (proj1 (proj2 (proj2 (moves_count_pair_reveals
                                  sample_pending 4 5 0)))).
    left. vm_compute. reflexivity.
Defined.

(** C6.  [flip(index)] changes nothing at all (deck, move counter, lock,
    timestamps, outstanding timers) when the lock is held, when there is
    no card at [index], or when the card there is already face-up or
    already resolved; otherwise the deck it installs differs from the old
    one at [index] only, where the card is now face-up. *)
Theorem flip_guard (s : Engine) (now : Q) (index : Z) :
  (rejects s index ->
     flip now index s = (s, false) /\ step (Flip now index) s = s) /\
  (forall card, accepts s index card ->
     deck (step (Flip now index) s) =
       <[Z.to_nat index := turn_up card]> (deck s) /\
     deck (step (Flip now index) s) !! Z.to_nat index =
       Some (mkCard (id card) (emoji card) true false) /\
     forall k, k <> Z.to_nat index ->
       deck (step (Flip now index) s) !! k = deck s !! k).
Proof.
  split.
  - intros Hr. split; [by apply flip_of_rejects | by apply step_flip_rejects].
  - intros card Ha. rewrite (step_flip_accepts _ _ _ _ Ha), flipped_state_deck.
    destruct Ha as (_ & Hat & _ & Hm). apply card_at_lookup in Hat as [_ Hat].
    split; [done|]. split.
    + rewrite list_lookup_insert_eq by (by eapply lookup_lt_Some).
      unfold turn_up. by rewrite Hm.
    + intros k Hk. by rewrite list_lookup_insert_ne.
Qed.

Lemma flip_guard_witness :
  (flip 4 5 sample_pending = (sample_pending, false) /\
   step (Flip 4 5) sample_pending = sample_pending) /\
  (deck (step (Flip 3 2) sample_one_open) =
     <[Z.to_nat 2 := turn_up (mkCard 3 "🎮" false false)]>
       (deck sample_one_open) /\
   deck (step (Flip 3 2) sample_one_open) !! Z.to_nat 2 =
     Some (mkCard (id (mkCard 3 "🎮" false false))
             (emoji (mkCard 3 "🎮" false false)) true false) /\
   forall k, k <> Z.to_nat 2 ->
     deck (step (Flip 3 2) sample_one_open) !! k = deck sample_one_open !! k).
Proof.
  split.
  - apply (proj1 (flip_guard sample_pending 4 5)).
    left. vm_compute. reflexivity.
  - apply (proj2 (flip_guard sample_one_open 3 2)
             (mkCard 3 "🎮" false false)).
    repeat split; vm_compute; reflexivity.
Defined.

(** ** Timers that outlive a reset *)





(** ** The pair-count configuration *)

(** C7, as stated, fails for [useQueryPairs]: [?pairs=7] is numeric and
    outside the supported set, and resolves to 7, not to the default 8. *)
Lemma useQueryPairs_accepts_unsupported :
  useQueryPairs decimal_literal (Some "7"%string) = 7%Q /\
  ~ (7 == 8)%Q /\
  ~ (7%Z ∈ MEMORY_PAIR_OPTIONS).
Proof.
  split; [vm_compute; reflexivity|]. split; [discriminate|].
  unfold MEMORY_PAIR_OPTIONS. intros H.
  repeat (apply elem_of_cons in H as [H|H]; [discriminate|]).
  by apply elem_of_nil in H.
Qed.

Lemma includes_options n :
  includes (Num n) = true ->
  exists o, o ∈ MEMORY_PAIR_OPTIONS /\ (inject_Z o == n)%Q.
Proof.
  unfold includes. intros H. apply existsb_exists in H as (o & Ho & Heq).
  exists o. split; [by apply list_elem_of_In | by apply Qeq_bool_iff].
Qed.

Lemma includes_member n :
  (exists o, o ∈ MEMORY_PAIR_OPTIONS /\ (inject_Z o == n)%Q) ->
  includes (Num n) = true.
Proof.
  intros (o & Ho & Heq). unfold includes. apply existsb_exists.
  exists o. split; [by apply list_elem_of_In | by apply Qeq_bool_iff].
Qed.

Lemma includes_none n :
  (forall o, o ∈ MEMORY_PAIR_OPTIONS -> ~ (inject_Z o == n)%Q) ->
  includes (Num n) = false.
Proof.
  intros H. destruct (includes (Num n)) eqn:E; [|done].
  destruct (includes_options _ E) as (o & Ho & Heq). by destruct (H o Ho).
Qed.

(** C7, amended.  For any conversion of strings to numbers:
    [usePairsParam] always resolves to a member of the supported set: to
    the number the parameter converts to when that number is in the set,
    and to the default 8 when the parameter is absent, empty, not a finite
    number, or a number outside the set; [useQueryPairs] resolves to the
    default 8 when the value is not a finite number or lies below 4 or
    above 24, and hands every number from 4 to the palette size 16 on as
    it is. *)
Theorem pairs_resolution (StringToNumber : string -> JSNumber)
    (raw : option string) :
  (exists o, o ∈ MEMORY_PAIR_OPTIONS /\
     (usePairsParam StringToNumber raw == inject_Z o)%Q) /\
  (forall s n, raw = Some s -> s <> EmptyString ->
     StringToNumber s = Num n ->
     (exists o, o ∈ MEMORY_PAIR_OPTIONS /\ (inject_Z o == n)%Q) ->
     usePairsParam StringToNumber raw = n) /\
  (raw = None \/ raw = Some EmptyString \/
   (exists s, raw = Some s /\
      (StringToNumber s = NaN \/
       (exists sign, StringToNumber s = Infinity sign) \/
       (exists n, StringToNumber s = Num n /\
          forall o, o ∈ MEMORY_PAIR_OPTIONS -> ~ (inject_Z o == n)%Q))) ->
   usePairsParam StringToNumber raw = 8%Q) /\
  (Number StringToNumber raw = NaN \/
   (exists sign, Number StringToNumber raw = Infinity sign) \/
   (exists n, Number StringToNumber raw = Num n /\ (n < 4 \/ 24 < n)%Q) ->
   useQueryPairs StringToNumber raw = 8%Q) /\
  (forall n, Number StringToNumber raw = Num n ->
     (4 <= n)%Q -> (n <= 16)%Q ->
     useQueryPairs StringToNumber raw = n).
Proof.
  assert (Hdef : exists o, o ∈ MEMORY_PAIR_OPTIONS /\ (8 == inject_Z o)%Q).
  { exists 8%Z. split; [|reflexivity].
    unfold MEMORY_PAIR_OPTIONS. apply elem_of_cons. right.
    apply elem_of_cons. by left. }
  split; [|split; [|split; [|split]]].
  - unfold usePairsParam, parse.
    destruct raw as [[|c s]|]; [exact Hdef | | exact Hdef].
    destruct (StringToNumber (String c s)) as [| |n]; [exact Hdef..|].
    destruct (includes (Num n)) eqn:E; [|exact Hdef].
    destruct (includes_options _ E) as (o & Ho & Heq).
    exists o. split; [done | by symmetry].
  - intros s n -> Hne Hn Hin. unfold usePairsParam, parse.
    destruct s as [|c s]; [done|].
    by rewrite Hn, (includes_member _ Hin).
  - unfold usePairsParam, parse.
    intros [-> | [-> | (s & -> & Hs)]]; [done..|].
    destruct s as [|c s]; [done|].
    destruct Hs as [-> | [[sign ->] | (n & -> & Hn)]]; [done..|].
    by rewrite (includes_none _ Hn).
  - unfold useQueryPairs.
    intros [-> | [[sign ->] | (n & -> & Hn)]]; [done..|].
    destruct (Qle_bool 4 n) eqn:E4, (Qle_bool n 24) eqn:E24; simpl; try done.
    apply Qle_bool_iff in E4, E24.
    destruct Hn as [Hn | Hn]; [by apply Qle_not_lt in E4
                              | by apply Qle_not_lt in E24].
  - intros n Hn H4 H16. unfold useQueryPairs. rewrite Hn.
    assert (H24 : (n <= 24)%Q) by (eapply Qle_trans; [exact H16 | discriminate]).
    apply Qle_bool_iff in H4, H24. by rewrite H4, H24.
Qed.

Lemma pairs_resolution_witness :
  usePairsParam decimal_literal (Some "10"%string) = 10%Q /\
  usePairsParam decimal_literal (Some "99"%string) = 8%Q /\
  useQueryPairs decimal_literal (Some "99"%string) = 8%Q /\
  useQueryPairs decimal_literal (Some "7"%string) = 7%Q.
Proof.
  split; [|split; [|split]].
  - apply (proj1 (proj2 (pairs_resolution decimal_literal
                           (Some "10"%string))) "10"%string 10%Q).
    + reflexivity.
    + discriminate.
    + vm_compute. reflexivity.
    + exists 10%Z. split; [|reflexivity].
      unfold MEMORY_PAIR_OPTIONS. do 2 (apply elem_of_cons; right).
      apply elem_of_cons. by left.
  - apply (proj1 (proj2 (proj2 (pairs_resolution decimal_literal
                                  (Some "99"%string))))).
    right. right. exists "99"%string. split; [reflexivity|].
    right. right. exists 99%Q. split; [vm_compute; reflexivity|].
    intros o Ho. unfold MEMORY_PAIR_OPTIONS in Ho.
    repeat (apply elem_of_cons in Ho as [->|Ho]; [discriminate|]).
    by apply elem_of_nil in Ho.
  - apply (proj1 (proj2 (proj2 (proj2 (pairs_resolution decimal_literal
                                         (Some "99"%string)))))).
    right. right. exists 99%Q. split; [vm_compute; reflexivity|].
    right. reflexivity.
  - apply (proj2 (proj2 (proj2 (proj2 (pairs_resolution decimal_literal
                                         (Some "7"%string))))) 7%Q).
    + vm_compute. reflexivity.
    + discriminate.
    + discriminate.
Defined.

(** ** Completion and the elapsed time *)

Lemma truthy_positive q : (0 < q)%Q -> truthy (Some q) = true.
Proof.
  intros Hq. unfold truthy. destruct (Qeq_bool q 0) eqn:E; [|done].
  apply Qeq_bool_iff in E. rewrite E in Hq. by apply Qlt_irrefl in Hq.
Qed.

Lemma complete_no_open d : complete d = true -> List.filter is_open d = [].
Proof.
  intros Hc. assert (H : Forall (fun c => matched c = true) d).
  { apply Forall_forall. intros c. apply (complete_all_matched _ _ Hc). }
  clear Hc. induction H as [|c d Hm _ IH]; [done|].
  simpl. unfold is_open at 1. rewrite Hm, andb_false_r. exact IH.
Qed.

Lemma complete_rejects s index :
  complete (deck s) = true -> rejects s index.
Proof.
  intros Hc. destruct (rejects_or_accepts s index) as [Hr | [card Ha]]; [done|].
  destruct Ha as (_ & Hat & _ & Hm). apply card_at_lookup in Hat as [_ Hat].
  apply list_elem_of_lookup_2 in Hat.
  rewrite (complete_all_matched _ _ Hc Hat) in Hm. done.
Qed.

Lemma complete_nonempty d :
  complete d = true -> Exists (fun c => flipped c = true \/ matched c = true) d.
Proof.
  intros Hc. destruct d as [|c d]; [done|].
  apply Exists_cons_hd. right.
  apply (complete_all_matched _ _ Hc), list_elem_of_here.
Qed.

Lemma resolve_touched r c :
  flipped (resolve r c) = true \/ matched (resolve r c) = true ->
  flipped c = true \/ matched c = true.
Proof.
  unfold resolve. destruct (is_open c) eqn:E; [|done].
  apply andb_prop in E as [-> _]. by left.
Qed.

(** The end timestamp is set exactly while the deck is complete, the start
    timestamp is set as soon as a card has been turned, and both are
    positive. *)
Lemma timestamps_invariant s :
  Reachable s ->
  (finishedAt s <> None -> complete (deck s) = true) /\
  (complete (deck s) = true -> finishedAt s <> None) /\
  (Exists (fun c => flipped c = true \/ matched c = true) (deck s) ->
     startedAt s <> None) /\
  (forall st, startedAt s = Some st -> (0 < st)%Q) /\
  (forall f, finishedAt s = Some f -> (0 < f)%Q).
Proof.
  induction 1 as [|s e Hs (IH1 & IH2 & IH3 & IH4 & IH5) [Hnow Hv]].
  { repeat split; try done. simpl. by intros ?%Exists_nil. }
  destruct e as [now index | now k | now pairs rnd]; simpl in Hnow.
  - destruct (rejects_or_accepts s index) as [Hr | [card Ha]].
    { by rewrite step_flip_rejects. }
    rewrite (step_flip_accepts _ _ _ _ Ha).
    pose proof (flipped_state_incomplete now index card s Ha) as Hinc.
    assert (Hnf : finishedAt s = None).
    { destruct (finishedAt s) eqn:E; [|done].
      assert (Hc : complete (deck s) = true) by (apply IH1; congruence).
      destruct (rejects_not_accepts s index card); [|done].
      by apply complete_rejects. }
    assert (Hfin : finishedAt (flipped_state now index card s) = None).
    { by destruct (flipped_state_cases now index card s)
        as [(a & b & _ & ->) | [_ ->]]. }
    assert (Hst : startedAt (flipped_state now index card s) =
                  if truthy (startedAt s) then startedAt s else Some now).
    { by destruct (flipped_state_cases now index card s)
        as [(a & b & _ & ->) | [_ ->]]. }
    rewrite Hfin, Hst, Hinc. repeat split; try done.
    + intros _. destruct (startedAt s); simpl; [by destruct (negb _)|done].
    + intros st. destruct (truthy (startedAt s)); [apply IH4|].
      by intros [= <-].
  - destruct (timers s !! k) as [t|] eqn:Ht;
      [| by rewrite step_fire_none].
    rewrite (step_fire_some _ _ _ _ Ht). unfold deck_effect. simpl.
    destruct (complete (resolve (action t) <$> deck s)) eqn:Hc; simpl.
    + repeat split; try done.
      * intros Hex. apply IH3. apply Exists_fmap in Hex.
        eapply Exists_impl; [exact Hex|]. intros c. apply resolve_touched.
      * by intros f [= <-].
    + rewrite Hc. repeat split; try done.
      * intros Hf. specialize (IH1 Hf).
        by rewrite (resolve_no_open _ _ (complete_no_open _ IH1)), IH1 in Hc.
      * intros Hex. apply IH3. apply Exists_fmap in Hex.
        eapply Exists_impl; [exact Hex|]. intros c. apply resolve_touched.
  - rewrite step_reset. simpl.
    pose proof (generate_face_down pairs rnd) as Hfd.
    rewrite (face_down_incomplete _ Hfd). repeat split; try done.
    intros Hex. apply Exists_exists in Hex as (c & Hc & Ht).
    rewrite Forall_forall in Hfd. destruct (Hfd c Hc) as [Hf Hm].
    destruct Ht; congruence.
Qed.

Lemma overlapping_run_reachable : Reachable (run overlapping_run init).
Proof.
  apply Reachable_run; [|apply Reachable_init]. unfold overlapping_run.
  repeat (apply Forall_cons_2; [valid_event_tac|]). apply Forall_nil_2.
Qed.

(** C8, as stated, fails.  At the end of [overlapping_run] the deck is
    complete, the end timestamp is 1600 and the elapsed time 1400, and the
    timer of the last pair is still outstanding; when it fires at 1800,
    without any reset in between, the end timestamp is set a second time
    and the elapsed time becomes 1600. *)
Lemma completion_time_set_twice :
  Reachable (run overlapping_run init) /\
  timely 0 (overlapping_run ++ [Fire 1800 0]) init = true /\
  complete (deck (run overlapping_run init)) = true /\
  finishedAt (run overlapping_run init) = Some 1600%Q /\
  elapsedMs (run overlapping_run init) = Some 1400%Z /\
  timers (run overlapping_run init) = [mkTimer 350 1800 MarkMatched] /\
  deck (step (Fire 1800 0) (run overlapping_run init)) =
    deck (run overlapping_run init) /\
  finishedAt (step (Fire 1800 0) (run overlapping_run init)) = Some 1800%Q /\
  elapsedMs (step (Fire 1800 0) (run overlapping_run init)) = Some 1600%Z.
Proof.
  split; [apply overlapping_run_reachable|].
  repeat split; vm_compute; reflexivity.
Qed.

(** C8, amended.  In every reachable state: the elapsed time is absent
    unless every card of the (non-empty) deck is matched; while the deck
    is complete it is [Math.round] of end minus start; the end timestamp
    is set by the event that completes the deck, to the clock reading of
    that event; on a complete deck a flip changes nothing, the firing of a
    timer that is not outstanding changes nothing, and the firing of a
    timer that is still outstanding leaves the deck and the start
    timestamp alone and sets the end timestamp again, to the clock reading
    at which it fires. *)
Theorem completion_time (s : Engine) :
  Reachable s ->
  (elapsedMs s <> None -> complete (deck s) = true) /\
  (complete (deck s) = true ->
     exists f st, finishedAt s = Some f /\ startedAt s = Some st /\
       elapsedMs s = Some (Math_round (f - st))) /\
  (forall e, complete (deck s) = false ->
     complete (deck (step e s)) = true ->
     finishedAt (step e s) = Some (time_of e)) /\
  (complete (deck s) = true ->
     (forall now index, step (Flip now index) s = s) /\
     (forall now k, timers s !! k = None -> step (Fire now k) s = s) /\
     (forall now k, is_Some (timers s !! k) ->
        deck (step (Fire now k) s) = deck s /\
        startedAt (step (Fire now k) s) = startedAt s /\
        finishedAt (step (Fire now k) s) = Some now)).
Proof.
  intros Hs.
  destruct (timestamps_invariant s Hs) as (I1 & I2 & I3 & I4 & I5).
  split; [|split; [|split]].
  - intros He. apply I1. intros Hf. apply He. unfold elapsedMs. by rewrite Hf.
  - intros Hc.
    destruct (finishedAt s) as [f|] eqn:Ef; [|by destruct (I2 Hc)].
    destruct (startedAt s) as [st|] eqn:Est;
      [|by destruct (I3 (complete_nonempty _ Hc))].
    exists f, st. repeat split. unfold elapsedMs. rewrite Ef, Est.
    by rewrite (truthy_positive f (I5 f eq_refl)),
               (truthy_positive st (I4 st eq_refl)).
  - intros e Hinc Hc. destruct e as [now index | now k | now pairs rnd].
    + destruct (rejects_or_accepts s index) as [Hr | [card Ha]].
      * rewrite step_flip_rejects in Hc by done. congruence.
      * rewrite (step_flip_accepts _ _ _ _ Ha) in Hc.
        by rewrite (flipped_state_incomplete now index card s Ha) in Hc.
    + destruct (timers s !! k) as [t|] eqn:Ht.
      * rewrite (step_fire_some _ _ _ _ Ht) in *. unfold deck_effect in *.
        simpl in *.
        destruct (complete (resolve (action t) <$> deck s)) eqn:E; [done|].
        simpl in Hc. congruence.
      * rewrite step_fire_none in Hc by done. congruence.
    + rewrite step_reset in Hc. simpl in Hc.
      by rewrite (face_down_incomplete _ (generate_face_down pairs rnd)) in Hc.
  - intros Hc. split; [|split].
    + intros now index. by apply step_flip_rejects, complete_rejects.
    + intros now k Ht. by apply step_fire_none.
    + intros now k [t Ht]. rewrite (step_fire_some _ _ _ _ Ht).
      unfold deck_effect. simpl.
      rewrite (resolve_no_open _ _ (complete_no_open _ Hc)), Hc. done.
Qed.

Lemma completion_time_witness :
  (elapsedMs (run overlapping_run init) <> None ->
   complete (deck (run overlapping_run init)) = true) /\
  (complete (deck (run overlapping_run init)) = true ->
     exists f st, finishedAt (run overlapping_run init) = Some f /\
       startedAt (run overlapping_run init) = Some st /\
       elapsedMs (run overlapping_run init) = Some (Math_round (f - st))) /\
  (forall e, complete (deck (run overlapping_run init)) = false ->
     complete (deck (step e (run overlapping_run init))) = true ->
     finishedAt (step e (run overlapping_run init)) = Some (time_of e)) /\
  (complete (deck (run overlapping_run init)) = true ->
     (forall now index,
        step (Flip now index) (run overlapping_run init) =
          run overlapping_run init) /\
     (forall now k, timers (run overlapping_run init) !! k = None ->
        step (Fire now k) (run overlapping_run init) =
          run overlapping_run init) /\
     (forall now k, is_Some (timers (run overlapping_run init) !! k) ->
        deck (step (Fire now k) (run overlapping_run init)) =
          deck (run overlapping_run init) /\
        startedAt (step (Fire now k) (run overlapping_run init)) =
          startedAt (run overlapping_run init) /\
        finishedAt (step (Fire now k) (run overlapping_run init)) = Some now)).
Proof.
  apply (completion_time (run overlapping_run init)).
  apply overlapping_run_reachable.
Defined.

(** * Further properties of the engine *)

(** ** What [reset] leaves behind *)

(** X1.  After [reset], from any state: the move counter is zero, the lock is
    free, both timestamps and the elapsed time are absent, every card is
    face-down, and a flip of any card of the new deck is accepted.  The
    outstanding timers are all still there. *)
Theorem reset_starts_fresh_session (s : Engine) (now pairs : Q)
    (rnd : nat -> Q) :
  moves (step (Reset now pairs rnd) s) = 0 /\
  locked (step (Reset now pairs rnd) s) = false /\
  startedAt (step (Reset now pairs rnd) s) = None /\
  finishedAt (step (Reset now pairs rnd) s) = None /\
  elapsedMs (step (Reset now pairs rnd) s) = None /\
  Forall face_down (deck (step (Reset now pairs rnd) s)) /\
  timers (step (Reset now pairs rnd) s) = timers s /\
  forall index card,
    card_at (deck (step (Reset now pairs rnd) s)) index = Some card ->
    accepts (step (Reset now pairs rnd) s) index card.
Proof.
  rewrite step_reset. simpl.
  pose proof (generate_face_down pairs rnd) as Hfd.
  do 5 (split; [done|]). split; [exact Hfd|]. split; [done|].
  intros index card Hat. split; [done|]. split; [done|].
  apply card_at_lookup in Hat as [_ Hat]. apply list_elem_of_lookup_2 in Hat.
  rewrite Forall_forall in Hfd. apply (Hfd card Hat).
Qed.

(** ** The lock *)

Lemma lock_means_two_open s :
  Reachable s ->
  locked s = true -> open_count (deck s) = 2 /\ timers s <> [].
Proof.
  induction 1 as [|s e Hs IH Hv]; [done|].
  destruct e as [now index | now k | now pairs rnd].
  - destruct (rejects_or_accepts s index) as [Hr | [card Ha]].
    + by rewrite step_flip_rejects.
    + rewrite (step_flip_accepts _ _ _ _ Ha).
      destruct (flipped_state_cases now index card s)
        as [(a & b & Hf & Heq) | [_ Heq]].
      * rewrite flipped_state_deck, Heq. simpl. intros _.
        unfold open_count. rewrite Hf. split; [done|].
        by destruct (timers s).
      * rewrite Heq. simpl. destruct Ha as [Hu _]. congruence.
  - destruct (timers s !! k) as [t|] eqn:Ht.
    + by destruct (step_fire_fields now _ _ _ Ht) as (_ & _ & -> & _).
    + by rewrite step_fire_none.
  - by rewrite step_reset.
Qed.

(** X2.  In every reachable state the lock is held exactly while two cards are
    open; a timer is then outstanding, and the firing of any outstanding
    timer releases the lock: the engine cannot stay locked for ever. *)
Theorem lock_held_while_two_open (s : Engine) :
  Reachable s ->
  (locked s = true <-> open_count (deck s) = 2) /\
  (locked s = true -> timers s <> []) /\
  (forall now k, is_Some (timers s !! k) ->
     locked (step (Fire now k) s) = false).
Proof.
  intros Hs. split; [split|split].
  - intros Hl. by apply lock_means_two_open.
  - intros Hc. destruct (locked s) eqn:E; [done|].
    destruct (lock_discipline s Hs) as [_ H1]. specialize (H1 E). lia.
  - intros Hl. by apply lock_means_two_open.
  - intros now k [t Ht].
    by destruct (step_fire_fields now _ _ _ Ht) as (_ & _ & -> & _).
Qed.

Lemma lock_held_while_two_open_witness :
  (locked sample_pending = true <-> open_count (deck sample_pending) = 2) /\
  (locked sample_pending = true -> timers sample_pending <> []) /\
  (forall now k, is_Some (timers sample_pending !! k) ->
     locked (step (Fire now k) sample_pending) = false).
Proof.
  apply (lock_held_while_two_open sample_pending).
  unfold sample_pending, sample_one_open.
  repeat (apply Reachable_step; [| valid_event_tac]). apply Reachable_init.
Defined.

(** ** The start timestamp *)

(** X3.  Within a session the start timestamp is set by the first accepted flip,
    to the clock reading of that flip, and by nothing else; once set it
    never changes until the next [reset]. *)
Theorem start_time_set_once (s : Engine) (e : Event) :
  Reachable s ->
  is_reset e = false ->
  (forall st, startedAt s = Some st -> startedAt (step e s) = Some st) /\
  (startedAt s = None ->
     (forall now index card, e = Flip now index -> accepts s index card ->
        startedAt (step e s) = Some now) /\
     ((forall now index, e = Flip now index -> rejects s index) ->
        startedAt (step e s) = None)).
Proof.
  intros Hs He.
  destruct (timestamps_invariant s Hs) as (_ & _ & _ & I4 & _).
  assert (Hflip : forall now index card, accepts s index card ->
            startedAt (flipped_state now index card s) =
            if truthy (startedAt s) then startedAt s else Some now).
  { intros now index card _.
    by destruct (flipped_state_cases now index card s)
      as [(a & b & _ & ->) | [_ ->]]. }
  split.
  - intros st Hst. destruct e as [now index | now k | now pairs rnd]; [| |done].
    + destruct (rejects_or_accepts s index) as [Hr | [card Ha]].
      * by rewrite step_flip_rejects.
      * rewrite (step_flip_accepts _ _ _ _ Ha), (Hflip _ _ _ Ha), Hst.
        by rewrite (truthy_positive _ (I4 st Hst)).
    + destruct (timers s !! k) as [t|] eqn:Ht.
      * by destruct (step_fire_fields now _ _ _ Ht) as (_ & _ & _ & -> & _).
      * by rewrite step_fire_none.
  - intros Hnone. split.
    + intros now index card -> Ha.
      by rewrite (step_flip_accepts _ _ _ _ Ha), (Hflip _ _ _ Ha), Hnone.
    + intros Hrej. destruct e as [now index | now k | now pairs rnd]; [| |done].
      * by rewrite step_flip_rejects by (by eapply Hrej).
      * destruct (timers s !! k) as [t|] eqn:Ht.
        -- by destruct (step_fire_fields now _ _ _ Ht) as (_ & _ & _ & -> & _).
        -- by rewrite step_fire_none.
Qed.

Lemma start_time_set_once_witness :
  (forall st, startedAt sample_one_open = Some st ->
     startedAt (step (Flip 3 2) sample_one_open) = Some st) /\
  (startedAt sample_one_open = None ->
     (forall now index card, Flip 3 2 = Flip now index ->
        accepts sample_one_open index card ->
        startedAt (step (Flip 3 2) sample_one_open) = Some now) /\
     ((forall now index, Flip 3 2 = Flip now index ->
         rejects sample_one_open index) ->
        startedAt (step (Flip 3 2) sample_one_open) = None)).
Proof.
  apply (start_time_set_once sample_one_open (Flip 3 2)).
  - unfold sample_one_open.
    repeat (apply Reachable_step; [| valid_event_tac]). apply Reachable_init.
  - reflexivity.
Defined.

(** ** Cards keep their place *)

Lemma resolve_identity r c :
  id (resolve r c) = id c /\ emoji (resolve r c) = emoji c.
Proof. unfold resolve. by destruct (is_open c), r. Qed.

Lemma step_keeps_identity s e :
  is_reset e = false ->
  id <$> deck (step e s) = id <$> deck s /\
  emoji <$> deck (step e s) = emoji <$> deck s.
Proof.
  intros He. destruct e as [now index | now k | now pairs rnd]; [| |done].
  - destruct (rejects_or_accepts s index) as [Hr | [card Ha]].
    + by rewrite step_flip_rejects.
    + rewrite (step_flip_accepts _ _ _ _ Ha), flipped_state_deck.
      destruct Ha as (_ & Hat & _). apply card_at_lookup in Hat as [_ Hat].
      rewrite !list_fmap_insert. simpl.
      split; apply list_insert_id; by rewrite list_lookup_fmap, Hat.
  - destruct (timers s !! k) as [t|] eqn:Ht.
    + destruct (step_fire_fields now _ _ _ Ht) as (-> & _).
      rewrite <- !list_fmap_compose.
      split; apply list_fmap_ext; intros i c _; simpl;
        apply resolve_identity.
    + by rewrite step_fire_none.
Qed.

(** X4.  During a session no card changes its position, its id or its token, and
    the deck keeps its length: flips and timers only ever change the two
    flags. *)
Theorem cards_keep_identity (tr : list Event) (s : Engine) :
  Forall (fun e => is_reset e = false) tr ->
  id <$> deck (run tr s) = id <$> deck s /\
  emoji <$> deck (run tr s) = emoji <$> deck s /\
  length (deck (run tr s)) = length (deck s).
Proof.
  intros Htr. revert s. induction Htr as [|e tr He _ IH]; intros s; [done|].
  simpl. destruct (IH (step e s)) as (-> & -> & ->).
  destruct (step_keeps_identity s e He) as [Hid Hem].
  repeat split; [done..|].
  by rewrite <- (length_fmap id), Hid, length_fmap.
Qed.

Lemma cards_keep_identity_witness :
  id <$> deck (run [Flip 3 2; Fire 900 0; Flip 950 4] sample_one_open) =
    id <$> deck sample_one_open /\
  emoji <$> deck (run [Flip 3 2; Fire 900 0; Flip 950 4] sample_one_open) =
    emoji <$> deck sample_one_open /\
  length (deck (run [Flip 3 2; Fire 900 0; Flip 950 4] sample_one_open)) =
    length (deck sample_one_open).
Proof.
  apply (cards_keep_identity [Flip 3 2; Fire 900 0; Flip 950 4]
           sample_one_open).
  repeat (apply Forall_cons_2; [reflexivity|]). apply Forall_nil_2.
Defined.

(** ** Runs without a reset during a resolution *)

Lemma Disciplined_Reachable s : Disciplined s -> Reachable s.
Proof. induction 1; by constructor. Qed.

(** Either nothing is pending, or exactly the timer of the two open cards
    is. *)
Lemma disciplined_shape s :
  Disciplined s ->
  (timers s = [] /\ locked s = false /\ open_count (deck s) <= 1) \/
  (exists a b t0, timers s = [resolution_timer t0 a b] /\
     locked s = true /\ List.filter is_open (deck s) = [a; b]).
Proof.
  induction 1 as [|s e Hs IH Hv Hr].
  { left. repeat split. unfold open_count. simpl. lia. }
  destruct e as [now index | now k | now pairs rnd].
  - destruct (rejects_or_accepts s index) as [Hrej | [card Ha]].
    { by rewrite step_flip_rejects. }
    rewrite (step_flip_accepts _ _ _ _ Ha).
    pose proof (open_count_flipped now index card s Ha) as Hc.
    destruct IH as [(Hts & Hl & Ho) | (a & b & t0 & _ & Hl & _)];
      [| destruct Ha as [Hu _]; congruence].
    destruct (flipped_state_cases now index card s)
      as [(a & b & Hf & Heq) | [Hne Heq]].
    + right. exists a, b, now. rewrite flipped_state_deck, Heq. simpl.
      by rewrite Hts.
    + left. rewrite flipped_state_deck in *. rewrite Heq. simpl.
      repeat split; [done.. | lia].
  - destruct (timers s !! k) as [t|] eqn:Ht; [|by rewrite step_fire_none].
    destruct (step_fire_fields now _ _ _ Ht) as (Hd & _ & Hl & _ & Hts).
    left. rewrite Hd, Hl, Hts. unfold open_count.
    rewrite no_open_after_resolve. simpl.
    destruct IH as [(Hnil & _) | (a & b & t0 & Hone & _)].
    + by rewrite Hnil in Ht.
    + rewrite Hone in *. destruct k as [|k]; [|done].
      repeat split. lia.
  - rewrite step_reset. simpl. left. rewrite (Hr eq_refl).
    unfold open_count.
    rewrite (face_down_no_open _ (generate_face_down pairs rnd)).
    repeat split. simpl. lia.
Qed.

(** X6.  As long as [reset] is not called during a resolution, at most one timer
    is outstanding; one is outstanding exactly while the lock is held, and
    it is the timer that was scheduled for the two cards that are open. *)
Theorem one_timer_at_a_time (s : Engine) :
  Disciplined s ->
  length (timers s) <= 1 /\
  (timers s <> [] <-> locked s = true) /\
  (forall t, timers s = [t] ->
     exists a b t0, List.filter is_open (deck s) = [a; b] /\
       t = resolution_timer t0 a b).
Proof.
  intros Hs.
  destruct (disciplined_shape s Hs)
    as [(Hts & Hl & Ho) | (a & b & t0 & Hts & Hl & Hf)]; rewrite Hts, Hl.
  - repeat split; try done. simpl. lia.
  - repeat split; try done. intros t [= <-]. eauto.
Qed.

Lemma one_timer_at_a_time_witness :
  length (timers sample_pending) <= 1 /\
  (timers sample_pending <> [] <-> locked sample_pending = true) /\
  (forall t, timers sample_pending = [t] ->
     exists a b t0, List.filter is_open (deck sample_pending) = [a; b] /\
       t = resolution_timer t0 a b).
Proof.
  apply (one_timer_at_a_time sample_pending).
  unfold sample_pending, sample_one_open.
  repeat (apply Disciplined_step; [| valid_event_tac | try done]).
  apply Disciplined_init.
Defined.

Lemma matched_not_open c : matched c = true -> is_open c = false.
Proof. unfold is_open. intros ->. apply andb_false_r. Qed.

Lemma resolve_matched_inv r c :
  matched (resolve r c) = true ->
  (is_open c = false /\ resolve r c = c) \/
  (is_open c = true /\ r = MarkMatched /\ resolve r c = matched_up c).
Proof.
  destruct (is_open c) eqn:E.
  - destruct r.
    + intros _. right. by rewrite resolve_open_matched.
    + rewrite resolve_open_hidden by done. done.
  - intros _. left. by rewrite resolve_not_open.
Qed.

Lemma disciplined_paired s : Disciplined s -> paired (deck s).
Proof.
  induction 1 as [|s e Hs IH Hv Hr]; [by intros [|i] c|].
  destruct e as [now index | now k | now pairs rnd].
  - destruct (rejects_or_accepts s index) as [Hrej | [card Ha]].
    { by rewrite step_flip_rejects. }
    rewrite (step_flip_accepts _ _ _ _ Ha), flipped_state_deck.
    destruct Ha as (_ & Hat & _ & Hm). apply card_at_lookup in Hat as [_ Hat].
    assert (Hold : forall i c,
              <[Z.to_nat index := turn_up card]> (deck s) !! i = Some c ->
              matched c = true ->
              i <> Z.to_nat index /\ deck s !! i = Some c).
    { intros i c Hi Hc. destruct (decide (i = Z.to_nat index)) as [->|Hne].
      - rewrite list_lookup_insert_eq in Hi by (by eapply lookup_lt_Some).
        injection Hi as <-. simpl in Hc. congruence.
      - by rewrite list_lookup_insert_ne in Hi. }
    intros i c Hi Hc. destruct (Hold i c Hi Hc) as [Hne Hi'].
    destruct (IH i c Hi' Hc) as (j & c' & Hji & Hj & Hc' & He).
    exists j, c'. repeat split; try done.
    rewrite list_lookup_insert_ne; [done|]. intros <-. congruence.
  - destruct (timers s !! k) as [t|] eqn:Ht; [|by rewrite step_fire_none].
    destruct (step_fire_fields now _ _ _ Ht) as (-> & _).
    assert (Hkeep : forall j c', deck s !! j = Some c' -> matched c' = true ->
              (resolve (action t) <$> deck s) !! j = Some c').
    { intros j c' Hj Hc'. rewrite list_lookup_fmap, Hj. simpl.
      by rewrite (resolve_not_open _ _ (matched_not_open _ Hc')). }
    intros i c Hi Hc. rewrite list_lookup_fmap in Hi.
    destruct (deck s !! i) as [c0|] eqn:Hc0; [|done]. injection Hi as <-.
    destruct (resolve_matched_inv _ _ Hc) as [[Hno Heq] | (Hop & Hact & Heq)].
    + rewrite Heq in *.
      destruct (IH i c0 Hc0 Hc) as (j & c' & Hji & Hj & Hc' & He).
      exists j, c'. repeat split; try done. by apply Hkeep.
    + destruct (disciplined_shape s Hs)
        as [(Hnil & _) | (a & b & t0 & Hone & _ & Hf)];
        [by rewrite Hnil in Ht|].
      rewrite Hone in Ht. destruct k as [|k]; [|done]. injection Ht as <-.
      destruct (decide (emoji a = emoji b)) as [Hab|Hab];
        [| by rewrite (resolution_timer_differ _ _ _ Hab) in Hact].
      rewrite (resolution_timer_equal _ _ _ Hab) in *. simpl in *.
      destruct (filter_two_lookup _ _ _ _ Hf)
        as (p & q & Hpq & Hp & Hq & Ha & Hb & Hrest).
      rewrite Heq.
      destruct (decide (i = p)) as [->|Hip]; [|destruct (decide (i = q)) as [->|Hiq]].
      * assert (c0 = a) as -> by congruence.
        exists q, (matched_up b). repeat split; [lia | | done].
        rewrite list_lookup_fmap, Hq. simpl. by rewrite resolve_open_matched.
      * assert (c0 = b) as -> by congruence.
        exists p, (matched_up a). repeat split; [lia | | done].
        rewrite list_lookup_fmap, Hp. simpl. by rewrite resolve_open_matched.
      * rewrite (Hrest i c0 Hc0 Hip Hiq) in Hop. done.
  - rewrite step_reset. simpl. intros i c Hi Hc.
    apply list_elem_of_lookup_2 in Hi.
    pose proof (generate_face_down pairs rnd) as Hfd.
    rewrite Forall_forall in Hfd. destruct (Hfd c Hi). congruence.
Qed.

(** X7.  As long as [reset] is not called during a resolution, cards are only
    ever resolved two at a time and with equal tokens: every resolved card
    has a resolved partner with the same token at another position. *)
Theorem matched_in_equal_pairs (s : Engine) :
  Disciplined s -> paired (deck s).
Proof. apply disciplined_paired. Qed.

Lemma matched_in_equal_pairs_witness :
  paired (deck (run one_pair_run init)).
Proof.
  apply (matched_in_equal_pairs (run one_pair_run init)).
  unfold one_pair_run. simpl.
  repeat (apply Disciplined_step; [| valid_event_tac | try done]).
  apply Disciplined_init.
Defined.

(** X8.  As long as [reset] is not called during a resolution, no timer is left
    when the deck is complete, and nothing but [reset] changes the state
    any more: the end timestamp and the elapsed time stay as they are. *)
Theorem finished_game_is_frozen (s : Engine) (e : Event) :
  Disciplined s ->
  complete (deck s) = true ->
  is_reset e = false ->
  timers s = [] /\ step e s = s.
Proof.
  intros Hs Hc He.
  assert (Hts : timers s = []).
  { destruct (disciplined_shape s Hs)
      as [(Hts & _) | (a & b & t0 & _ & _ & Hf)]; [done|].
    by rewrite (complete_no_open _ Hc) in Hf. }
  split; [done|]. destruct e as [now index | now k | now pairs rnd]; [| |done].
  - by apply step_flip_rejects, complete_rejects.
  - apply step_fire_none. by rewrite Hts.
Qed.

Lemma finished_game_is_frozen_witness :
  timers (run patient_run init) = [] /\
  step (Flip 5000 3) (run patient_run init) = run patient_run init.
Proof.
  apply (finished_game_is_frozen (run patient_run init) (Flip 5000 3)).
  - unfold patient_run. simpl.
    repeat (apply Disciplined_step; [| valid_event_tac | try done]).
    apply Disciplined_init.
  - vm_compute. reflexivity.
  - reflexivity.
Defined.

(** ** Moves and resolved cards *)

Lemma matched_count_insert d i c c' :
  d !! i = Some c -> matched c' = matched c ->
  matched_count (<[i := c']> d) = matched_count d.
Proof.
  unfold matched_count. revert i.
  induction d as [|x d IH]; intros [|i] Hi Hm; simplify_eq/=.
  - rewrite Hm. by destruct (matched c).
  - destruct (matched x); simpl; by rewrite (IH i).
Qed.

Lemma matched_count_resolve r d :
  matched_count (resolve r <$> d) <= matched_count d + open_count d.
Proof.
  unfold matched_count, open_count.
  induction d as [|c d IH]; [done|]. rewrite fmap_cons. simpl.
  unfold resolve at 1. destruct (is_open c) eqn:E.
  - apply andb_prop in E as [_ Hm]. apply negb_true_iff in Hm.
    rewrite Hm. destruct r; simpl; lia.
  - destruct (matched c); simpl; lia.
Qed.

Lemma matched_count_face_down d : Forall face_down d -> matched_count d = 0.
Proof.
  unfold matched_count. induction 1 as [|c d [_ Hm] _ IH]; [done|].
  simpl. by rewrite Hm.
Qed.

Lemma matched_count_complete d :
  complete d = true -> matched_count d = length d.
Proof.
  intros Hc. assert (H : Forall (fun c => matched c = true) d).
  { apply Forall_forall. intros c. apply (complete_all_matched _ _ Hc). }
  unfold matched_count. clear Hc. induction H as [|c d Hm _ IH]; [done|].
  simpl. rewrite Hm. simpl. by rewrite IH.
Qed.

Lemma disciplined_moves s :
  Disciplined s ->
  matched_count (deck s) + 2 * length (timers s) <= 2 * moves s.
Proof.
  induction 1 as [|s e Hs IH Hv Hr]; [simpl; unfold matched_count; simpl; lia|].
  destruct e as [now index | now k | now pairs rnd].
  - destruct (rejects_or_accepts s index) as [Hrej | [card Ha]].
    { by rewrite step_flip_rejects. }
    rewrite (step_flip_accepts _ _ _ _ Ha).
    assert (Hm : matched_count (<[Z.to_nat index := turn_up card]> (deck s))
                 = matched_count (deck s)).
    { destruct Ha as (_ & Hat & _). apply card_at_lookup in Hat as [_ Hat].
      by apply (matched_count_insert _ _ card). }
    destruct (flipped_state_cases now index card s)
      as [(a & b & Hf & ->) | [Hne ->]]; simpl; rewrite Hm.
    + rewrite length_app. simpl. lia.
    + lia.
  - destruct (timers s !! k) as [t|] eqn:Ht; [|by rewrite step_fire_none].
    destruct (step_fire_fields now _ _ _ Ht) as (-> & -> & _ & _ & ->).
    pose proof (matched_count_resolve (action t) (deck s)) as Hres.
    destruct (lock_discipline s (Disciplined_Reachable s Hs)) as [H2 _].
    pose proof (length_delete (timers s) k (mk_is_Some _ _ Ht)) as Hdel.
    pose proof (lookup_lt_Some _ _ _ Ht). lia.
  - rewrite step_reset. simpl.
    rewrite (matched_count_face_down _ (generate_face_down pairs rnd)).
    rewrite (Hr eq_refl). simpl. lia.
Qed.

(** X9.  As long as [reset] is not called during a resolution, every move
    resolves at most two cards: the number of resolved cards is at most
    twice the move counter, so a deck of [2p] cards is never completed in
    fewer than [p] moves. *)
Theorem two_cards_per_move (s : Engine) :
  Disciplined s ->
  matched_count (deck s) <= 2 * moves s /\
  (complete (deck s) = true -> length (deck s) <= 2 * moves s).
Proof.
  intros Hs. pose proof (disciplined_moves s Hs) as H.
  split; [lia|]. intros Hc. rewrite <- (matched_count_complete _ Hc). lia.
Qed.

Lemma two_cards_per_move_witness :
  matched_count (deck (run patient_run init)) <=
    2 * moves (run patient_run init) /\
  (complete (deck (run patient_run init)) = true ->
   length (deck (run patient_run init)) <= 2 * moves (run patient_run init)).
Proof.
  apply (two_cards_per_move (run patient_run init)).
  unfold patient_run. simpl.
  repeat (apply Disciplined_step; [| valid_event_tac | try done]).
  apply Disciplined_init.
Defined.

(** * Further properties of the deck generator *)

(** ** Any pair count *)

Lemma seed_take_dealt k : k <= 16 -> dealt emojis k (seed (take k emojis)).
Proof.
  intros Hk.
  do 17 (destruct k as [|k];
         [apply (bool_decide_unpack _); vm_compute; reflexivity|]).
  lia.
Qed.

Lemma take_length_take {A} m (l : list A) :
  take (length (take m l)) l = take m l.
Proof.
  rewrite length_take. destruct (decide (m <= length l)) as [H|H].
  - by rewrite Nat.min_l.
  - rewrite Nat.min_r by lia. by rewrite !take_ge by lia.
Qed.

Lemma slice0_nonneg (n : Q) :
  (0 <= n)%Q ->
  slice0 emojis n = take (Z.to_nat (Z.min (Qfloor n) 16)) emojis.
Proof.
  intros Hn. unfold slice0, to_integer.
  rewrite (proj2 (Qle_bool_iff 0 n) Hn).
  assert (H0 : (0 <= Qfloor n)%Z).
  { change 0%Z with (Qfloor 0). by apply Qfloor_resp_le. }
  rewrite (proj2 (Z.ltb_ge _ _) H0). reflexivity.
Qed.

Lemma generate_dealt_any (n : Q) (rnd : nat -> Q) :
  length (slice0 emojis n) <= 16 /\
  dealt emojis (length (slice0 emojis n)) (generate n rnd) /\
  ((0 <= n)%Q ->
   length (slice0 emojis n) = Z.to_nat (Z.min (Qfloor n) 16)).
Proof.
  assert (Hlen : forall m, length (take m emojis) <= 16).
  { intros m. rewrite length_take. change (length emojis) with 16. lia. }
  split; [apply Hlen|]. split.
  - eapply dealt_Permutation; [apply shuffle_Permutation|].
    unfold slice0 at 2. rewrite <- take_length_take.
    apply seed_take_dealt, Hlen.
  - intros Hn. rewrite (slice0_nonneg n Hn), length_take.
    change (length emojis) with 16.
    assert (H0 : (0 <= Qfloor n)%Z).
    { change 0%Z with (Qfloor 0). by apply Qfloor_resp_le. }
    lia.
Qed.

(** X12.  Whatever number [reset] is given as its pair count, the deck is well
    formed for some number [k] of pairs that is at most the palette size
    16: [2k] cards, each of the first [k] tokens on exactly two cards,
    distinct ids, all face-down.  For a count that is not negative [k] is
    its integer part capped at 16, so a count above the palette never
    puts a token on more than two cards. *)
Theorem generate_within_palette (n : Q) (rnd : nat -> Q) :
  length (slice0 emojis n) <= 16 /\
  dealt emojis (length (slice0 emojis n)) (generate n rnd) /\
  ((0 <= n)%Q ->
   length (slice0 emojis n) = Z.to_nat (Z.min (Qfloor n) 16)).
Proof. apply generate_dealt_any. Qed.

Lemma generate_within_palette_witness :
  length (slice0 emojis 20) = Z.to_nat (Z.min (Qfloor 20) 16).
Proof.
  apply (proj2 (proj2 (generate_within_palette 20 zeros))).
  discriminate.
Defined.

Lemma Qfloor_between (n : Q) (a b : Z) :
  (inject_Z a <= n)%Q -> (n <= inject_Z b)%Q ->
  (a <= Qfloor n <= b)%Z.
Proof.
  intros Ha Hb. split.
  - rewrite <- (Qfloor_Z a). by apply Qfloor_resp_le.
  - rewrite <- (Qfloor_Z b). by apply Qfloor_resp_le.
Qed.

(** X13.  Whatever the [pairs] parameter of the address holds, the deck built
    for the count [useQueryPairs] resolves is well formed for between 4 and
    16 pairs. *)
Theorem query_pairs_deck (StringToNumber : string -> JSNumber)
    (raw : option string) (rnd : nat -> Q) :
  exists k, 4 <= k <= 16 /\
    dealt emojis k (generate (useQueryPairs StringToNumber raw) rnd).
Proof.
  set (n := useQueryPairs StringToNumber raw).
  assert (Hn : (4 <= n)%Q /\ (n <= 24)%Q).
  { subst n. unfold useQueryPairs.
    destruct (Number StringToNumber raw) as [| |q]; [by split..|].
    destruct (Qle_bool 4 q) eqn:E4; [|by split].
    destruct (Qle_bool q 24) eqn:E24; [|by split].
    split; by apply Qle_bool_iff. }
  destruct Hn as [H4 H24].
  assert (H0 : (0 <= n)%Q) by (eapply Qle_trans; [|exact H4]; discriminate).
  destruct (generate_dealt_any n rnd) as (_ & Hd & Hk).
  specialize (Hk H0).
  destruct (Qfloor_between n 4 24 H4 H24) as [Hlo Hhi].
  exists (length (slice0 emojis n)). split; [lia | exact Hd].
Qed.

(** X14.  Whatever the [pairs] parameter of the address holds, the deck built
    for the count [usePairsParam] resolves is well formed for one of the
    supported counts 6, 8, 10 and 12. *)
Theorem pairs_param_deck (StringToNumber : string -> JSNumber)
    (raw : option string) (rnd : nat -> Q) :
  exists o, o ∈ MEMORY_PAIR_OPTIONS /\
    dealt emojis (Z.to_nat o)
      (generate (usePairsParam StringToNumber raw) rnd).
Proof.
  set (n := usePairsParam StringToNumber raw).
  assert (Hn : exists o, o ∈ MEMORY_PAIR_OPTIONS /\ (n == inject_Z o)%Q).
  { subst n. unfold usePairsParam, parse.
    assert (Hdef : exists o, o ∈ MEMORY_PAIR_OPTIONS /\ (8 == inject_Z o)%Q).
    { exists 8%Z. split; [|reflexivity].
      unfold MEMORY_PAIR_OPTIONS. apply elem_of_cons. right.
      apply elem_of_cons. by left. }
    destruct raw as [[|c s]|]; [exact Hdef | | exact Hdef].
    destruct (StringToNumber (String c s)) as [| |q]; [exact Hdef..|].
    destruct (includes (Num q)) eqn:E; [|exact Hdef].
    destruct (includes_options _ E) as (o & Ho & Heq).
    exists o. split; [done | by symmetry]. }
  destruct Hn as (o & Ho & Heq). exists o. split; [done|].
  assert (Hfl : Qfloor n = o) by (by rewrite Heq, Qfloor_Z).
  assert (Hrange : (6 <= o <= 12)%Z).
  { unfold MEMORY_PAIR_OPTIONS in Ho.
    repeat (apply elem_of_cons in Ho as [->|Ho]; [lia|]).
    by apply elem_of_nil in Ho. }
  assert (H0 : (0 <= n)%Q).
  { rewrite Heq. change 0%Q with (inject_Z 0). rewrite <- Zle_Qle. lia. }
  destruct (generate_dealt_any n rnd) as (_ & Hd & Hk).
  specialize (Hk H0). rewrite Hk, Hfl in Hd.
  by replace (Z.min o 16) with o in Hd by lia.
Qed.

(** ** Every order can come out of [shuffle] *)

Lemma draw_valid i j : j <= i -> (0 <= draw i j)%Q /\ (draw i j < 1)%Q.
Proof.
  intros Hj. unfold draw, Qle, Qlt. simpl.
  rewrite Zpos_P_of_succ_nat. lia.
Qed.

Lemma pick_draw i j : j <= i -> pick i (draw i j) = j.
Proof.
  intros Hj. unfold pick.
  assert (H : (draw i j * inject_Z (Z.of_nat i + 1) ==
               inject_Z (Z.of_nat j))%Q).
  { unfold draw, Qeq, Qmult, inject_Z. simpl.
    rewrite Pos.mul_1_r, Zpos_P_of_succ_nat. lia. }
  rewrite H, Qfloor_Z. lia.
Qed.

Section ShuffleOrders.
Context {T : Type}.
Implicit Types (a p q s t : list T).

Lemma shuffle_loop_ext rnd rnd' k i a :
  (forall m, k <= m -> rnd m = rnd' m) ->
  shuffle_loop rnd k i a = shuffle_loop rnd' k i a.
Proof.
  revert k a. induction i as [|i IH]; intros k a H; [done|].
  simpl. rewrite (H k) by lia. apply IH. intros m Hm. apply H. lia.
Qed.

(** One iteration of the loop at index [n], the last index of the part [p]
    that is still to be settled, with [j] pointing at an element [y] of
    [p]: [y] goes to index [n], and what is left of [p] stays in front. *)
Lemma swap_settles_last p s n j y :
  length p = S n -> p !! j = Some y ->
  exists p', length p' = n /\ p' ++ [y] ≡ₚ p /\
    swap (p ++ s) n j = p' ++ y :: s.
Proof.
  intros Hlen Hj. pose proof (lookup_lt_Some _ _ _ Hj) as Hjn.
  set (r := swap (p ++ s) n j).
  assert (Hr : r ≡ₚ p ++ s) by apply swap_Permutation.
  assert (Hrlen : length r = length (p ++ s)) by apply swap_length.
  destruct (lookup_lt_is_Some_2 p n ltac:(lia)) as [x Hx].
  assert (Hrn : r !! n = Some y).
  { subst r. unfold swap.
    rewrite (lookup_app_l_Some _ _ _ _ Hx), (lookup_app_l_Some _ _ _ _ Hj).
    destruct (decide (j = n)) as [->|Hne].
    - assert (x = y) as -> by congruence.
      rewrite list_lookup_insert_eq; [done|].
      rewrite length_insert, length_app. lia.
    - rewrite list_lookup_insert_ne by done.
      rewrite list_lookup_insert_eq; [done|]. rewrite length_app. lia. }
  assert (Hdrop : drop (S n) r = s).
  { subst r. unfold swap.
    rewrite (lookup_app_l_Some _ _ _ _ Hx), (lookup_app_l_Some _ _ _ _ Hj).
    rewrite !drop_insert_lt by lia.
    rewrite <- Hlen. by rewrite drop_app_length. }
  exists (take n r).
  assert (Hsplit : r = take n r ++ y :: s).
  { rewrite <- (take_drop n r) at 1. f_equal.
    by rewrite (drop_S _ _ _ Hrn), Hdrop. }
  split; [|split].
  - rewrite length_take, Hrlen, length_app. lia.
  - apply (inj (.++ s)). rewrite <- (assoc_L (++)). simpl.
    by rewrite <- Hsplit.
  - exact Hsplit.
Qed.

Lemma shuffle_loop_reaches i : forall k p q s,
  length p = S i -> p ≡ₚ q ->
  exists rnd, valid_random rnd /\ shuffle_loop rnd k i (p ++ s) = q ++ s.
Proof.
  induction i as [|i IH]; intros k p q s Hlen Hpq.
  - exists (fun _ => 0%Q). split; [by intros m; split|]. simpl.
    destruct p as [|x [|? ?]]; try done.
    apply Permutation_singleton_l in Hpq. by subst q.
  - assert (Hq : length q = S (S i)) by (by rewrite <- Hpq).
    destruct (exists_last (l := q)) as (q' & y & ->); [by intros ->|].
    assert (Hy : y ∈ p).
    { rewrite Hpq. apply elem_of_app. right. apply list_elem_of_here. }
    apply list_elem_of_lookup in Hy as [j Hj].
    pose proof (lookup_lt_Some _ _ _ Hj) as Hjn.
    destruct (swap_settles_last p s (S i) j y Hlen Hj)
      as (p' & Hp' & Hperm & Hswap).
    assert (Hpq' : p' ≡ₚ q').
    { apply (inj (.++ [y])). by rewrite Hperm. }
    destruct (IH (S k) p' q' (y :: s) Hp' Hpq') as (rnd0 & Hv0 & Hloop).
    exists (fun m => if decide (m = k) then draw (S i) j else rnd0 m).
    split.
    + intros m. destruct (decide (m = k)); [|apply Hv0].
      apply draw_valid. lia.
    + cbn [shuffle_loop]. rewrite decide_True by done.
      rewrite pick_draw by lia. rewrite Hswap.
      rewrite (shuffle_loop_ext _ rnd0).
      * rewrite Hloop. by rewrite <- (assoc_L (++)).
      * intros m Hm. by rewrite decide_False by lia.
Qed.
End ShuffleOrders.

(** X16.  Every arrangement of the elements of [l] comes out of [shuffle] for
    some results of [Math.random] within its range: no order of the deck
    is excluded. *)
Theorem shuffle_reaches_every_order {T} (l t : list T) :
  t ≡ₚ l ->
  exists rnd, valid_random rnd /\ shuffle rnd l = t.
Proof.
  intros Hp. unfold shuffle. destruct l as [|x l].
  - apply Permutation_nil_r in Hp. subst t.
    exists (fun _ => 0%Q). split; [by intros m; split | done].
  - destruct (shuffle_loop_reaches (length l) 0 (x :: l) t [])
      as (rnd & Hv & Hloop); [done | by symmetry |].
    exists rnd. split; [done|].
    rewrite !app_nil_r in Hloop. simpl. by rewrite Nat.sub_0_r.
Qed.

Lemma shuffle_reaches_every_order_witness :
  exists rnd, valid_random rnd /\ shuffle rnd [1; 2; 3] = [3; 1; 2].
Proof.
  apply (shuffle_reaches_every_order [1; 2; 3] [3; 1; 2]).
  apply (bool_decide_unpack _). vm_compute. reflexivity.
Defined.

(** * The address parameters *)

(** ** [URLSearchParams] *)

Lemma params_get_delete_eq key params :
  params_get key (params_delete key params) = None.
Proof.
  induction params as [|[k v] l IH]; [done|]. simpl.
  destruct (String.eqb k key) eqn:E; simpl; [done|]. by rewrite E.
Qed.

Lemma params_get_delete_ne key key' params :
  key' <> key ->
  params_get key' (params_delete key params) = params_get key' params.
Proof.
  intros Hne. induction params as [|[k v] l IH]; [done|]. simpl.
  destruct (String.eqb k key) eqn:E; simpl.
  - apply String.eqb_eq in E as ->.
    by rewrite (proj2 (String.eqb_neq _ _)) by done.
  - by rewrite IH.
Qed.

Lemma params_get_set_eq key value params :
  params_get key (params_set key value params) = Some value.
Proof.
  induction params as [|[k v] l IH]; simpl.
  - by rewrite String.eqb_refl.
  - destruct (String.eqb k key) eqn:E; simpl.
    + by rewrite String.eqb_refl.
    + by rewrite E.
Qed.

Lemma params_get_set_ne key key' value params :
  key' <> key ->
  params_get key' (params_set key value params) = params_get key' params.
Proof.
  intros Hne. assert (Hk : String.eqb key key' = false).
  { apply String.eqb_neq. congruence. }
  induction params as [|[k v] l IH]; simpl.
  - by rewrite Hk.
  - destruct (String.eqb k key) eqn:E; simpl.
    + apply String.eqb_eq in E as ->. rewrite Hk.
      by apply params_get_delete_ne.
    + by rewrite IH.
Qed.

Lemma params_delete_idem key params :
  params_delete key (params_delete key params) = params_delete key params.
Proof.
  induction params as [|[k v] l IH]; [done|]. simpl.
  destruct (String.eqb k key) eqn:E; simpl; [done|]. by rewrite E, IH.
Qed.

Lemma params_delete_set key value params :
  params_delete key (params_set key value params) = params_delete key params.
Proof.
  induction params as [|[k v] l IH]; simpl.
  - by rewrite String.eqb_refl.
  - destruct (String.eqb k key) eqn:E; simpl.
    + rewrite String.eqb_refl. simpl. apply params_delete_idem.
    + by rewrite E, IH.
Qed.

Lemma params_set_idem key value params :
  params_set key value (params_set key value params) =
  params_set key value params.
Proof.
  induction params as [|[k v] l IH]; simpl.
  - by rewrite String.eqb_refl.
  - destruct (String.eqb k key) eqn:E; simpl.
    + by rewrite String.eqb_refl, params_delete_idem.
    + by rewrite E, IH.
Qed.

Lemma params_named_delete key params :
  List.filter (fun kv => String.eqb (fst kv) key) (params_delete key params)
  = [].
Proof.
  induction params as [|[k v] l IH]; [done|]. simpl.
  destruct (String.eqb k key) eqn:E; simpl; [done|]. by rewrite E.
Qed.

Lemma params_named_set key value params :
  List.filter (fun kv => String.eqb (fst kv) key) (params_set key value params)
  = [(key, value)].
Proof.
  induction params as [|[k v] l IH]; simpl.
  - by rewrite String.eqb_refl.
  - destruct (String.eqb k key) eqn:E; simpl.
    + by rewrite String.eqb_refl, params_named_delete.
    + by rewrite E, IH.
Qed.

(** ** [useSearchParamState] *)

Lemma other_parameters_query {T} (key : string) (defaultValue : T)
    (serialize : T -> string) (same : T -> T -> bool) (next : T)
    (st : T * list (string * string)) (key' : string) :
  key' <> key ->
  params_get key' (snd (updateValue key defaultValue serialize same next st))
    = params_get key' (snd st).
Proof.
  intros Hne. unfold updateValue, write_query. simpl.
  destruct (same next defaultValue);
    [by apply params_get_delete_ne | by apply params_get_set_ne].
Qed.

(** X17.  An update of one parameter leaves the tuples of every other name in
    the address as they are, in number, order and value; so what any other
    key reads is unchanged. *)
Theorem other_parameters_untouched {T} (key : string) (defaultValue : T)
    (serialize : T -> string) (same : T -> T -> bool) (next : T)
    (st : T * list (string * string)) (key' : string) :
  key' <> key ->
  params_delete key (snd (updateValue key defaultValue serialize same next st))
    = params_delete key (snd st) /\
  params_get key' (snd (updateValue key defaultValue serialize same next st))
    = params_get key' (snd st).
Proof.
  intros Hne. unfold updateValue, write_query. simpl.
  destruct (same next defaultValue); split.
  - apply params_delete_idem.
  - by apply params_get_delete_ne.
  - apply params_delete_set.
  - by apply params_get_set_ne.
Qed.

Lemma other_parameters_untouched_witness :
  params_delete "view"
    (snd (view_update zip (dashboard, [("pairs", "10"); ("view", "memory")])))
    = params_delete "view"
        (snd (dashboard, [("pairs", "10"); ("view", "memory")])) /\
  params_get "pairs"
    (snd (view_update zip (dashboard, [("pairs", "10"); ("view", "memory")])))
    = params_get "pairs"
        (snd (dashboard, [("pairs", "10"); ("view", "memory")])).
Proof.
  apply (other_parameters_untouched "view" dashboard view_name
           (fun a b => String.eqb (view_name a) (view_name b)) zip
           (dashboard, [("pairs", "10"); ("view", "memory")])%string "pairs").
  discriminate.
Defined.

(** X18.  After an update the address is minimal: it holds no tuple of the key
    when the value is the default, and exactly one, carrying the serialized
    value, otherwise, whatever it held before.  Updating to the same value
    again changes nothing. *)
Theorem address_kept_minimal {T} (key : string) (defaultValue : T)
    (serialize : T -> string) (same : T -> T -> bool) (next : T)
    (st : T * list (string * string)) :
  List.filter (fun kv => String.eqb (fst kv) key)
    (snd (updateValue key defaultValue serialize same next st)) =
    (if same next defaultValue then [] else [(key, serialize next)]) /\
  updateValue key defaultValue serialize same next
    (updateValue key defaultValue serialize same next st) =
  updateValue key defaultValue serialize same next st.
Proof.
  unfold updateValue, write_query. simpl.
  destruct (same next defaultValue); split.
  - apply params_named_delete.
  - by rewrite params_delete_idem.
  - apply params_named_set.
  - by rewrite params_set_idem.
Qed.

(** ** The view *)

Lemma parse_view_name v : parse_view (Some (view_name v)) = Some v.
Proof. by destruct v. Qed.

(** X19.  After every update of the view, and after every [popstate], the
    in-memory view is the one the address reads as: setting a view and
    reading the address back gives that view.  An address whose [view]
    parameter is absent or is none of the three names reads as the
    dashboard. *)
Theorem view_matches_address (v : View) (st : View * list (string * string))
    (params : list (string * string)) :
  fst (view_update v st) = v /\
  view_read (snd (view_update v st)) = v /\
  fst (onPopState "view" dashboard parse_view params st) =
    view_read (snd (onPopState "view" dashboard parse_view params st)) /\
  ((forall w, params_get "view" params <> Some (view_name w)) ->
   view_read params = dashboard).
Proof.
  split; [done|]. split; [|split; [done|]].
  - unfold view_read, readValue, view_update, updateValue, write_query. simpl.
    destruct v; simpl.
    + by rewrite params_get_delete_eq.
    + by rewrite params_get_set_eq.
    + by rewrite params_get_set_eq.
  - intros Hno. unfold view_read, readValue, parse_view.
    destruct (params_get "view" params) as [s|]; [|done].
    destruct (String.eqb s "dashboard") eqn:E1;
      [apply String.eqb_eq in E1 as ->; by destruct (Hno dashboard)|].
    destruct (String.eqb s "memory") eqn:E2;
      [apply String.eqb_eq in E2 as ->; by destruct (Hno memory)|].
    destruct (String.eqb s "zip") eqn:E3;
      [apply String.eqb_eq in E3 as ->; by destruct (Hno zip)|].
    done.
Qed.

Lemma view_matches_address_witness :
  view_read [("view", "settings")]%string = dashboard.
Proof.
  apply (view_matches_address dashboard (dashboard, [])
           [("view", "settings")]%string).
  intros w. destruct w; discriminate.
Defined.

(** ** The pair count *)

(** X20.  Setting a supported pair count and reading the address back gives that
    count, for conversions that take the count to a non-empty string and
    that string back to the count (as [String] and [Number] do). *)
Theorem pairs_round_trip (StringToNumber : string -> JSNumber)
    (NumberToString : Q -> string) (v : Q)
    (st : Q * list (string * string)) :
  includes (Num v) = true ->
  NumberToString v <> EmptyString ->
  StringToNumber (NumberToString v) = Num v ->
  fst (pairs_update NumberToString v st) = v /\
  (pairs_read StringToNumber (snd (pairs_update NumberToString v st)) == v)%Q.
Proof.
  intros Hin Hne Hback. split; [done|].
  unfold pairs_read, readValue, pairs_update, updateValue, write_query. simpl.
  destruct (Qeq_bool v 8) eqn:E.
  - rewrite params_get_delete_eq. simpl. symmetry. by apply Qeq_bool_iff.
  - rewrite params_get_set_eq. unfold parse.
    destruct (NumberToString v) as [|c s] eqn:Es; [done|].
    rewrite Hback, Hin. reflexivity.
Qed.

Lemma pairs_round_trip_witness :
  fst (pairs_update decimal_string 10 (8%Q, [("pairs", "6")]%string)) = 10%Q /\
  (pairs_read decimal_literal
     (snd (pairs_update decimal_string 10 (8%Q, [("pairs", "6")]%string)))
   == 10)%Q.
Proof.
  apply (pairs_round_trip decimal_literal decimal_string 10
           (8%Q, [("pairs", "6")]%string)).
  - vm_compute. reflexivity.
  - vm_compute. discriminate.
  - vm_compute. reflexivity.
Defined.

(** X21.  The two parameters do not disturb each other: an update of the view
    leaves the pair count the address reads as unchanged, for both readers
    of the pair count, and an update of the pair count leaves the view
    unchanged. *)
Theorem view_and_pairs_independent (StringToNumber : string -> JSNumber)
    (NumberToString : Q -> string) (v : View) (n : Q) (view0 : View)
    (pairs0 : Q) (params : list (string * string)) :
  pairs_read StringToNumber (snd (view_update v (view0, params))) =
    pairs_read StringToNumber params /\
  useQueryPairs StringToNumber
    (params_get "pairs" (snd (view_update v (view0, params)))) =
    useQueryPairs StringToNumber (params_get "pairs" params) /\
  view_read (snd (pairs_update NumberToString n (pairs0, params))) =
    view_read params.
Proof.
  assert (Hv : params_get "pairs" (snd (view_update v (view0, params))) =
               params_get "pairs" params).
  { apply (other_parameters_query "view" dashboard view_name). discriminate. }
  assert (Hp : params_get "view"
                 (snd (pairs_update NumberToString n (pairs0, params))) =
               params_get "view" params).
  { apply (other_parameters_query "pairs" 8%Q NumberToString). discriminate. }
  unfold pairs_read, view_read, readValue. by rewrite Hv, Hp.
Qed.

(** * The card buttons *)

Lemma shown_cards_are_up s :
  Reachable s ->
  Forall (fun c => flipped c || matched c = flipped c) (deck s).
Proof.
  induction 1 as [|s e Hs IH Hv]; [constructor|].
  destruct e as [now index | now k | now pairs rnd].
  - destruct (rejects_or_accepts s index) as [Hr | [card Ha]].
    + by rewrite step_flip_rejects.
    + rewrite (step_flip_accepts _ _ _ _ Ha), flipped_state_deck.
      by apply Forall_insert.
  - destruct (timers s !! k) as [t|] eqn:Ht; [|by rewrite step_fire_none].
    destruct (step_fire_fields now _ _ _ Ht) as (-> & _).
    apply Forall_fmap. eapply Forall_impl; [exact IH|].
    intros c Hc. simpl. unfold resolve.
    destruct (is_open c) eqn:E; [|done].
    apply andb_prop in E as [Hf Hm]. apply negb_true_iff in Hm.
    destruct (action t); simpl; [by rewrite Hf | by rewrite Hm].
  - rewrite step_reset. simpl.
    eapply Forall_impl; [apply generate_face_down|].
    by intros c [-> ->].
Qed.

(** X22.  In every reachable state each card button is in one of two conditions:
    either the card is face-up, and the button shows its token and is
    labelled with it; or the card is face-down and unresolved, the button
    shows ["?"], is labelled ["Hidden card"] and is enabled, and nothing of
    what is rendered depends on the token.  A button is never labelled
    ["Hidden card"] while it shows the token. *)
Theorem card_button_consistent (s : Engine) (c : Card) :
  Reachable s ->
  c ∈ deck s ->
  (flipped c = true /\ card_text c = emoji c /\ aria_label c = emoji c) \/
  (flipped c = false /\ matched c = false /\
   card_text c = "?"%string /\ aria_label c = "Hidden card"%string /\
   disabled c = false).
Proof.
  intros Hs Hc. pose proof (shown_cards_are_up s Hs) as H.
  rewrite Forall_forall in H. specialize (H c Hc).
  unfold card_text, aria_label, disabled. rewrite H.
  destruct (flipped c) eqn:Ef; [by left|].
  right. simpl in H. by rewrite H.
Qed.

Lemma card_button_consistent_witness :
  (flipped (mkCard 3 "🎮" true false) = true /\
   card_text (mkCard 3 "🎮" true false) = emoji (mkCard 3 "🎮" true false) /\
   aria_label (mkCard 3 "🎮" true false) = emoji (mkCard 3 "🎮" true false)) \/
  (flipped (mkCard 3 "🎮" true false) = false /\
   matched (mkCard 3 "🎮" true false) = false /\
   card_text (mkCard 3 "🎮" true false) = "?"%string /\
   aria_label (mkCard 3 "🎮" true false) = "Hidden card"%string /\
   disabled (mkCard 3 "🎮" true false) = false).
Proof.
  apply (card_button_consistent sample_pending (mkCard 3 "🎮" true false)).
  - unfold sample_pending, sample_one_open.
    repeat (apply Reachable_step; [| valid_event_tac]). apply Reachable_init.
  - apply (bool_decide_unpack _). vm_compute. reflexivity.
Defined.

(** * More on sessions *)

(** ** Resolved cards are final *)

Lemma step_keeps_resolved s e i c :
  is_reset e = false ->
  deck s !! i = Some c -> matched c = true ->
  deck (step e s) !! i = Some c.
Proof.
  intros He Hi Hc. destruct e as [now index | now k | now pairs rnd]; [| |done].
  - destruct (rejects_or_accepts s index) as [Hr | [card Ha]].
    + by rewrite step_flip_rejects.
    + rewrite (step_flip_accepts _ _ _ _ Ha), flipped_state_deck.
      destruct Ha as (_ & Hat & _ & Hm). apply card_at_lookup in Hat as [_ Hat].
      rewrite list_lookup_insert_ne; [done|]. intros <-. congruence.
  - destruct (timers s !! k) as [t|] eqn:Ht; [|by rewrite step_fire_none].
    destruct (step_fire_fields now _ _ _ Ht) as (-> & _).
    rewrite list_lookup_fmap, Hi. simpl.
    by rewrite (resolve_not_open _ _ (matched_not_open _ Hc)).
Qed.

(** X5.  Once a card is resolved, no flip and no timer, stale or not, changes
    it again during the session: it stays at its index, resolved and with
    the face it had. *)
Theorem resolved_cards_are_final (tr : list Event) (s : Engine) (i : nat)
    (c : Card) :
  Forall (fun e => is_reset e = false) tr ->
  deck s !! i = Some c ->
  matched c = true ->
  deck (run tr s) !! i = Some c.
Proof.
  intros Htr. revert s. induction Htr as [|e tr He _ IH]; intros s Hi Hc;
    [done|].
  simpl. apply IH; [|done]. by apply step_keeps_resolved.
Qed.

Lemma resolved_cards_are_final_witness :
  deck (run [Flip 500 3; Flip 550 5; Fire 1200 0] (run one_pair_run init)) !! 1
  = Some (mkCard 2 "🎮" true true).
Proof.
  apply (resolved_cards_are_final [Flip 500 3; Flip 550 5; Fire 1200 0]
           (run one_pair_run init) 1 (mkCard 2 "🎮" true true)).
  - repeat (apply Forall_cons_2; [reflexivity|]). apply Forall_nil_2.
  - vm_compute. reflexivity.
  - reflexivity.
Defined.

(** ** Ids and tokens *)

Lemma seed_take_numbered k :
  k <= 16 ->
  id <$> seed (take k emojis) = seq 0 (2 * k) /\
  Forall (fun c => emojis !! (id c / 2) = Some (emoji c))
    (seed (take k emojis)).
Proof.
  intros Hk.
  do 17 (destruct k as [|k];
         [split; [vm_compute; reflexivity
                 | apply (bool_decide_unpack _); vm_compute; reflexivity]|]).
  lia.
Qed.

(** X15.  In every deck [reset] builds, the ids are the numbers from 0 up to the
    number of cards, each once, and the card with id [i] carries the token
    number [i / 2] of the palette: the two cards of a token have
    consecutive ids. *)
Theorem ids_number_the_tokens (n : Q) (rnd : nat -> Q) :
  id <$> generate n rnd ≡ₚ seq 0 (length (generate n rnd)) /\
  Forall (fun c => emojis !! (id c / 2) = Some (emoji c)) (generate n rnd).
Proof.
  assert (Hk : length (take (length (slice0 emojis n)) emojis) <= 16).
  { rewrite length_take. change (length emojis) with 16. lia. }
  assert (Hs : slice0 emojis n = take (length (slice0 emojis n)) emojis).
  { unfold slice0. by rewrite take_length_take. }
  assert (Hk' : length (slice0 emojis n) <= 16) by (by rewrite Hs).
  destruct (seed_take_numbered _ Hk') as [Hid Htok]. rewrite <- Hs in *.
  split.
  - assert (Hl : length (seed (slice0 emojis n)) =
                 2 * length (slice0 emojis n)).
    { by rewrite <- (length_fmap id), Hid, length_seq. }
    unfold generate. rewrite shuffle_length, Hl.
    rewrite (shuffle_Permutation rnd (seed (slice0 emojis n))).
    by rewrite Hid.
  - unfold generate. by rewrite shuffle_Permutation.
Qed.

(** ** The game can always go on *)

Lemma deck_partition d :
  length d = matched_count d + open_count d + length (List.filter is_hidden d).
Proof.
  unfold matched_count, open_count.
  induction d as [|c d IH]; [done|]. simpl.
  unfold is_open at 1, is_hidden at 1.
  destruct (flipped c), (matched c); simpl; lia.
Qed.

Lemma filter_positive_lookup {A} (P : A -> bool) d :
  0 < length (List.filter P d) ->
  exists i c, d !! i = Some c /\ P c = true.
Proof.
  induction d as [|x d IH]; simpl; [lia|].
  destruct (P x) eqn:E.
  - intros _. by exists 0, x.
  - intros H. destruct (IH H) as (i & c & Hi & Hc). by exists (S i), c.
Qed.

Lemma unmatched_left d :
  forallb matched d = false -> matched_count d < length d.
Proof.
  unfold matched_count. induction d as [|c d IH]; [done|]. simpl.
  destruct (matched c); simpl.
  - intros H. specialize (IH H). lia.
  - intros _. pose proof (List.filter_length_le matched d). lia.
Qed.

Lemma matched_count_resolve_match d :
  matched_count (resolve MarkMatched <$> d) = matched_count d + open_count d.
Proof.
  unfold matched_count, open_count.
  induction d as [|c d IH]; [done|]. rewrite fmap_cons. simpl.
  unfold resolve at 1. destruct (is_open c) eqn:E.
  - apply andb_prop in E as [_ Hm]. apply negb_true_iff in Hm.
    rewrite Hm. simpl. lia.
  - destruct (matched c); simpl; lia.
Qed.

Lemma matched_count_resolve_hide d :
  matched_count (resolve HideAgain <$> d) = matched_count d.
Proof.
  unfold matched_count.
  induction d as [|c d IH]; [done|]. rewrite fmap_cons. simpl.
  unfold resolve at 1. destruct (is_open c) eqn:E.
  - apply andb_prop in E as [_ Hm]. apply negb_true_iff in Hm.
    rewrite Hm. simpl. exact IH.
  - destruct (matched c); simpl; lia.
Qed.

(** Without a reset during a resolution, the resolved cards and the cards
    of the deck both come in even numbers. *)
Lemma disciplined_parity s :
  Disciplined s ->
  exists m k, matched_count (deck s) = 2 * m /\ length (deck s) = 2 * k.
Proof.
  induction 1 as [|s e Hs (m & k0 & Hm & Hk) Hv Hr]; [by exists 0, 0|].
  destruct e as [now index | now k | now pairs rnd].
  - destruct (rejects_or_accepts s index) as [Hrej | [card Ha]].
    { rewrite step_flip_rejects by done. eauto. }
    rewrite (step_flip_accepts _ _ _ _ Ha), flipped_state_deck.
    destruct Ha as (_ & Hat & _). apply card_at_lookup in Hat as [_ Hat].
    exists m, k0. split.
    + by rewrite (matched_count_insert _ _ card).
    + by rewrite length_insert.
  - destruct (timers s !! k) as [t|] eqn:Ht;
      [| rewrite step_fire_none by done; eauto].
    destruct (step_fire_fields now _ _ _ Ht) as (-> & _).
    destruct (disciplined_shape s Hs)
      as [(Hnil & _) | (a & b & t0 & _ & _ & Hf)]; [by rewrite Hnil in Ht|].
    assert (Ho : open_count (deck s) = 2) by (unfold open_count; by rewrite Hf).
    destruct (action t).
    + exists (S m), k0. rewrite matched_count_resolve_match, length_fmap. lia.
    + exists m, k0. by rewrite matched_count_resolve_hide, length_fmap.
  - rewrite step_reset. simpl.
    destruct (generate_dealt_any pairs rnd) as (_ & (Hlen & _) & _).
    exists 0, (length (slice0 emojis pairs)).
    by rewrite (matched_count_face_down _ (generate_face_down pairs rnd)).
Qed.

(** X10.  As long as [reset] is not called during a resolution, the game never
    gets stuck before the deck is complete: either the lock is held and a
    timer is outstanding that will release it, or there is a card whose
    flip is accepted. *)
Theorem game_can_proceed (s : Engine) :
  Disciplined s ->
  deck s <> [] ->
  complete (deck s) = false ->
  (locked s = true /\ timers s <> []) \/
  (exists index card, accepts s index card).
Proof.
  intros Hs Hne Hc.
  destruct (disciplined_shape s Hs)
    as [(_ & Hl & Ho) | (a & b & t0 & Hts & Hl & _)];
    [| left; by rewrite Hts].
  right. destruct (disciplined_parity s Hs) as (m & k & Hm & Hk).
  assert (Hun : matched_count (deck s) < length (deck s)).
  { apply unmatched_left. unfold complete in Hc.
    destruct (deck s) as [|c d]; [done|]. exact Hc. }
  pose proof (deck_partition (deck s)) as Hpart.
  destruct (filter_positive_lookup is_hidden (deck s) ltac:(lia))
    as (i & c & Hi & Hh).
  apply andb_prop in Hh as [Hf Hmt]. apply negb_true_iff in Hf, Hmt.
  exists (Z.of_nat i), c. repeat split; try done.
  unfold card_at. rewrite (proj2 (Z.ltb_ge _ _)) by lia.
  by rewrite Nat2Z.id.
Qed.

Lemma game_can_proceed_witness :
  (locked (run one_pair_run init) = true /\
   timers (run one_pair_run init) <> []) \/
  (exists index card, accepts (run one_pair_run init) index card).
Proof.
  apply (game_can_proceed (run one_pair_run init)).
  - unfold one_pair_run. simpl.
    repeat (apply Disciplined_step; [| valid_event_tac | try done]).
    apply Disciplined_init.
  - vm_compute. discriminate.
  - vm_compute. reflexivity.
Defined.

(** ** The elapsed time is not negative *)

Lemma Math_round_nonneg q : (0 <= q)%Q -> (0 <= Math_round q)%Z.
Proof.
  intros Hq. unfold Math_round. change 0%Z with (Qfloor 0).
  apply Qfloor_resp_le. apply (Qle_trans _ q); [done|].
  rewrite <- (Qplus_0_r q) at 1. apply Qplus_le_r. discriminate.
Qed.

Lemma timestamps_ordered tr : forall s last,
  Reachable s ->
  (forall st, startedAt s = Some st -> (st <= last)%Q) ->
  (forall st f, startedAt s = Some st -> finishedAt s = Some f ->
     (st <= f)%Q) ->
  Forall valid_event tr ->
  clock_ordered last tr = true ->
  forall st f, startedAt (run tr s) = Some st ->
    finishedAt (run tr s) = Some f -> (st <= f)%Q.
Proof.
  induction tr as [|e tr IH]; intros s last Hs Hst Hord Hv Hclock; [done|].
  apply Forall_cons in Hv as [He Htr]. simpl in Hclock.
  apply andb_prop in Hclock as [Hle Hclock]. apply Qle_bool_iff in Hle.
  simpl. apply (IH (step e s) (time_of e)); try done.
  - by constructor.
  - intros st. destruct e as [now index | now k | now pairs rnd]; simpl in *.
    + destruct (rejects_or_accepts s index) as [Hr | [card Ha]].
      * rewrite step_flip_rejects by done. intros H.
        apply (Qle_trans _ last); [by apply Hst | done].
      * rewrite (step_flip_accepts _ _ _ _ Ha).
        assert (Hflip : startedAt (flipped_state now index card s) =
                        if truthy (startedAt s) then startedAt s else Some now).
        { by destruct (flipped_state_cases now index card s)
            as [(a & b & _ & ->) | [_ ->]]. }
        rewrite Hflip. destruct (truthy (startedAt s)).
        -- intros H. apply (Qle_trans _ last); [by apply Hst | done].
        -- intros [= <-]. apply Qle_refl.
    + destruct (timers s !! k) as [t|] eqn:Ht.
      * destruct (step_fire_fields now _ _ _ Ht) as (_ & _ & _ & -> & _).
        intros H. apply (Qle_trans _ last); [by apply Hst | done].
      * rewrite step_fire_none by done. intros H.
        apply (Qle_trans _ last); [by apply Hst | done].
    + by rewrite step_reset.
  - intros st f. destruct e as [now index | now k | now pairs rnd]; simpl in *.
    + destruct (rejects_or_accepts s index) as [Hr | [card Ha]].
      * rewrite step_flip_rejects by done. apply Hord.
      * rewrite (step_flip_accepts _ _ _ _ Ha).
        assert (Hfin : finishedAt (flipped_state now index card s) = None).
        { assert (Hnf : finishedAt s = None).
          { destruct (timestamps_invariant s Hs) as (I1 & _).
            destruct (finishedAt s) eqn:E; [|done].
            assert (Hc : complete (deck s) = true) by (apply I1; congruence).
            destruct (rejects_not_accepts s index card); [|done].
            by apply complete_rejects. }
          by destruct (flipped_state_cases now index card s)
            as [(a & b & _ & ->) | [_ ->]]. }
        by rewrite Hfin.
    + destruct (timers s !! k) as [t|] eqn:Ht;
        [| rewrite step_fire_none by done; apply Hord].
      rewrite (step_fire_some _ _ _ _ Ht). unfold deck_effect. simpl.
      destruct (complete (resolve (action t) <$> deck s)); simpl.
      * intros H [= <-]. apply (Qle_trans _ last); [by apply Hst | done].
      * apply Hord.
    + by rewrite step_reset.
Qed.

(** X11.  With a clock that never goes back, the end timestamp is never before
    the start timestamp, and the elapsed time, when there is one, is not
    negative. *)
Theorem elapsed_not_negative (tr : list Event) (z : Z) :
  Forall valid_event tr ->
  clock_ordered 0 tr = true ->
  elapsedMs (run tr init) = Some z ->
  (0 <= z)%Z.
Proof.
  intros Hv Hclock. unfold elapsedMs.
  destruct (finishedAt (run tr init)) as [f|] eqn:Ef; [|done].
  destruct (startedAt (run tr init)) as [st|] eqn:Est; [|done].
  destruct (truthy (Some f) && truthy (Some st)); [|done].
  intros [= <-]. apply Math_round_nonneg.
  assert (H : (st <= f)%Q).
  { by apply (timestamps_ordered tr init 0 Reachable_init). }
  unfold Qminus. rewrite <- (Qplus_opp_r st).
  by apply Qplus_le_l.
Qed.

Lemma elapsed_not_negative_witness : (0 <= 1400)%Z.
Proof.
  apply (elapsed_not_negative overlapping_run 1400).
  - unfold overlapping_run.
    repeat (apply Forall_cons_2; [valid_event_tac|]). apply Forall_nil_2.
  - vm_compute. reflexivity.
  - vm_compute. reflexivity.
Defined.

(** * Which timer resolves a pending pair *)

Lemma crossed_run_match_reachable : Reachable (run crossed_run_match init).
Proof.
  apply Reachable_run; [|apply Reachable_init]. unfold crossed_run_match.
  repeat (apply Forall_cons_2; [valid_event_tac|]). apply Forall_nil_2.
Qed.

Lemma crossed_run_hide_reachable : Reachable (run crossed_run_hide init).
Proof.
  apply Reachable_run; [|apply Reachable_init]. unfold crossed_run_hide.
  repeat (apply Forall_cons_2; [valid_event_tac|]). apply Forall_nil_2.
Qed.

(** C1, as stated, fails.  At the end of [crossed_run_match] two cards of
    different tokens are pending and their 650 ms timer is outstanding,
    behind the 350 ms timer left over from before the reset.  The pair's
    own timer can never be the first to fire; the older one fires at 450
    and marks both cards matched, and when the 650 ms timer fires at 900
    they stay matched and face-up.  At the end of [crossed_run_hide] the
    two cards of one token are pending behind a 650 ms timer left over:
    it fires at 750 and turns them face-down, and when their own 350 ms
    timer fires at 850 they stay face-down and unmatched. *)
Lemma stale_timer_resolves_pending_pair :
  (Reachable (run crossed_run_match init) /\
   List.filter is_open (deck (run crossed_run_match init)) =
     [mkCard 1 "🍕" true false; mkCard 3 "🎮" true false] /\
   timers (run crossed_run_match init) =
     [mkTimer 350 450 MarkMatched; mkTimer 650 900 HideAgain] /\
   (forall now, may_fire now 1 (timers (run crossed_run_match init)) = false) /\
   timely 0 (crossed_run_match ++ [Fire 450 0; Fire 900 0]) init = true /\
   deck (run (crossed_run_match ++ [Fire 450 0; Fire 900 0]) init) !! 0 =
     Some (mkCard 1 "🍕" true true) /\
   deck (run (crossed_run_match ++ [Fire 450 0; Fire 900 0]) init) !! 2 =
     Some (mkCard 3 "🎮" true true)) /\
  (Reachable (run crossed_run_hide init) /\
   List.filter is_open (deck (run crossed_run_hide init)) =
     [mkCard 2 "🎮" true false; mkCard 3 "🎮" true false] /\
   timers (run crossed_run_hide init) =
     [mkTimer 650 750 HideAgain; mkTimer 350 850 MarkMatched] /\
   (forall now, may_fire now 1 (timers (run crossed_run_hide init)) = false) /\
   timely 0 (crossed_run_hide ++ [Fire 750 0; Fire 850 0]) init = true /\
   deck (run (crossed_run_hide ++ [Fire 750 0; Fire 850 0]) init) !! 1 =
     Some (mkCard 2 "🎮" false false) /\
   deck (run (crossed_run_hide ++ [Fire 750 0; Fire 850 0]) init) !! 2 =
     Some (mkCard 3 "🎮" false false)).
Proof.
  split.
  - split; [apply crossed_run_match_reachable|].
    do 2 (split; [vm_compute; reflexivity|]).
    split; [|repeat split; vm_compute; reflexivity].
    intros now.
    replace (timers (run crossed_run_match init))
      with [mkTimer 350 450 MarkMatched; mkTimer 650 900 HideAgain]
      by (vm_compute; reflexivity).
    unfold may_fire. simpl. apply andb_false_r.
  - split; [apply crossed_run_hide_reachable|].
    do 2 (split; [vm_compute; reflexivity|]).
    split; [|repeat split; vm_compute; reflexivity].
    intros now.
    replace (timers (run crossed_run_hide init))
      with [mkTimer 650 750 HideAgain; mkTimer 350 850 MarkMatched]
      by (vm_compute; reflexivity).
    unfold may_fire. simpl. apply andb_false_r.
Qed.

(** C1, amended.  Whenever exactly two cards [a] and [b] are face-up and
    unresolved, the lock is held and the newest outstanding timer is the
    one scheduled for them: the 350 ms timer with equal tokens, the 650 ms
    timer with different tokens.  When that timer fires while the two are
    still pending, both become matched and stay face-up (equal tokens) or
    both are face-down and unmatched again (different tokens), and the lock
    is released.  It is the only outstanding timer as long as [reset] was
    never called during a resolution.  In general, whichever outstanding
    timer fires first resolves the two cards by its own callback (a 350 ms
    timer marks them matched, a 650 ms timer turns them face-down) and
    releases the lock.  No other card changes. *)
Theorem pending_pair_resolution (s : Engine) (a b : Card) :
  Reachable s ->
  List.filter is_open (deck s) = [a; b] ->
  locked s = true /\
  exists ts t0 i j,
    timers s = ts ++ [resolution_timer t0 a b] /\
    i < j /\ deck s !! i = Some a /\ deck s !! j = Some b /\
    (Disciplined s -> ts = []) /\
    (emoji a = emoji b ->
       resolution_timer t0 a b = mkTimer 350 (t0 + 350) MarkMatched /\
       forall now,
         let s' := step (Fire now (length ts)) s in
         deck s' !! i = Some (matched_up a) /\
         deck s' !! j = Some (matched_up b) /\
         locked s' = false /\
         forall k, k <> i -> k <> j -> deck s' !! k = deck s !! k) /\
    (emoji a <> emoji b ->
       resolution_timer t0 a b = mkTimer 650 (t0 + 650) HideAgain /\
       forall now,
         let s' := step (Fire now (length ts)) s in
         deck s' !! i = Some (hidden a) /\
         deck s' !! j = Some (hidden b) /\
         locked s' = false /\
         forall k, k <> i -> k <> j -> deck s' !! k = deck s !! k) /\
    (forall now k t, timers s !! k = Some t ->
       let s' := step (Fire now k) s in
       (action t = MarkMatched ->
          deck s' !! i = Some (matched_up a) /\
          deck s' !! j = Some (matched_up b)) /\
       (action t = HideAgain ->
          deck s' !! i = Some (hidden a) /\
          deck s' !! j = Some (hidden b)) /\
       locked s' = false /\
       forall k', k' <> i -> k' <> j -> deck s' !! k' = deck s !! k').
Proof.
  intros Hs Hf.
  destruct (pending_pair_timer s Hs a b Hf) as (Hl & ts & t0 & Hts).
  destruct (filter_two_lookup _ _ _ _ Hf)
    as (i & j & Hij & Hi & Hj & Ha & Hb & Hrest).
  split; [done|]. exists ts, t0, i, j. do 4 (split; [done|]).
  assert (Hk : timers s !! length ts = Some (resolution_timer t0 a b)).
  { rewrite Hts, lookup_app_r by lia. by rewrite Nat.sub_diag. }
  assert (Hfire : forall now k t, timers s !! k = Some t ->
            deck (step (Fire now k) s) !! i = Some (resolve (action t) a) /\
            deck (step (Fire now k) s) !! j = Some (resolve (action t) b) /\
            locked (step (Fire now k) s) = false /\
            forall k', k' <> i -> k' <> j ->
              deck (step (Fire now k) s) !! k' = deck s !! k').
  { intros now k t Ht.
    destruct (step_fire_fields now _ _ _ Ht) as (-> & _ & -> & _ & _).
    rewrite !list_lookup_fmap, Hi, Hj. repeat split.
    intros k' Hki Hkj. rewrite list_lookup_fmap.
    destruct (deck s !! k') as [c|] eqn:Hc; [|done]. simpl.
    by rewrite (resolve_not_open _ _ (Hrest k' c Hc Hki Hkj)). }
  split; [|split; [|split]].
  - intros Hd.
    destruct (disciplined_shape s Hd)
      as [(Hnil & _) | (a' & b' & t0' & Hone & _)]; rewrite Hts in *.
    + by destruct ts.
    + destruct ts as [|x ts]; [done|]. simpl in Hone.
      injection Hone as _ Hone. by destruct ts.
  - intros E. split; [by apply resolution_timer_equal|]. intros now s'.
    subst s'. destruct (Hfire now _ _ Hk) as (H1 & H2 & H3 & H4).
    rewrite (resolution_timer_equal _ _ _ E) in H1, H2. simpl in H1, H2.
    rewrite resolve_open_matched in H1, H2 by done. done.
  - intros E. split; [by apply resolution_timer_differ|]. intros now s'.
    subst s'. destruct (Hfire now _ _ Hk) as (H1 & H2 & H3 & H4).
    rewrite (resolution_timer_differ _ _ _ E) in H1, H2. simpl in H1, H2.
    rewrite resolve_open_hidden in H1, H2 by done. done.
  - intros now k t Ht s'. subst s'.
    destruct (Hfire now _ _ Ht) as (H1 & H2 & H3 & H4).
    split; [|split; [|done]]; intros Hact; rewrite Hact in H1, H2.
    + by rewrite resolve_open_matched in H1, H2 by done.
    + by rewrite resolve_open_hidden in H1, H2 by done.
Qed.

Lemma pending_pair_resolution_witness :
  (locked sample_pending = true /\
  exists ts t0 i j,
    timers sample_pending = ts ++ [resolution_timer t0 (mkCard 1 "🍕" true false) (mkCard 3 "🎮" true false)] /\
    i < j /\ deck sample_pending !! i = Some (mkCard 1 "🍕" true false) /\ deck sample_pending !! j = Some (mkCard 3 "🎮" true false) /\
    (Disciplined sample_pending -> ts = []) /\
    (emoji (mkCard 1 "🍕" true false) = emoji (mkCard 3 "🎮" true false) ->
       resolution_timer t0 (mkCard 1 "🍕" true false) (mkCard 3 "🎮" true false) = mkTimer 350 (t0 + 350) MarkMatched /\
       forall now,
         let s' := step (Fire now (length ts)) sample_pending in
         deck s' !! i = Some (matched_up (mkCard 1 "🍕" true false)) /\
         deck s' !! j = Some (matched_up (mkCard 3 "🎮" true false)) /\
         locked s' = false /\
         forall k, k <> i -> k <> j -> deck s' !! k = deck sample_pending !! k) /\
    (emoji (mkCard 1 "🍕" true false) <> emoji (mkCard 3 "🎮" true false) ->
       resolution_timer t0 (mkCard 1 "🍕" true false) (mkCard 3 "🎮" true false) = mkTimer 650 (t0 + 650) HideAgain /\
       forall now,
         let s' := step (Fire now (length ts)) sample_pending in
         deck s' !! i = Some (hidden (mkCard 1 "🍕" true false)) /\
         deck s' !! j = Some (hidden (mkCard 3 "🎮" true false)) /\
         locked s' = false /\
         forall k, k <> i -> k <> j -> deck s' !! k = deck sample_pending !! k) /\
    (forall now k t, timers sample_pending !! k = Some t ->
       let s' := step (Fire now k) sample_pending in
       (action t = MarkMatched ->
          deck s' !! i = Some (matched_up (mkCard 1 "🍕" true false)) /\
          deck s' !! j = Some (matched_up (mkCard 3 "🎮" true false))) /\
       (action t = HideAgain ->
          deck s' !! i = Some (hidden (mkCard 1 "🍕" true false)) /\
          deck s' !! j = Some (hidden (mkCard 3 "🎮" true false))) /\
       locked s' = false /\
       forall k', k' <> i -> k' <> j -> deck s' !! k' = deck sample_pending !! k')) /\
  (locked sample_pending_equal = true /\
  exists ts t0 i j,
    timers sample_pending_equal = ts ++ [resolution_timer t0 (mkCard 2 "🎮" true false) (mkCard 3 "🎮" true false)] /\
    i < j /\ deck sample_pending_equal !! i = Some (mkCard 2 "🎮" true false) /\ deck sample_pending_equal !! j = Some (mkCard 3 "🎮" true false) /\
    (Disciplined sample_pending_equal -> ts = []) /\
    (emoji (mkCard 2 "🎮" true false) = emoji (mkCard 3 "🎮" true false) ->
       resolution_timer t0 (mkCard 2 "🎮" true false) (mkCard 3 "🎮" true false) = mkTimer 350 (t0 + 350) MarkMatched /\
       forall now,
         let s' := step (Fire now (length ts)) sample_pending_equal in
         deck s' !! i = Some (matched_up (mkCard 2 "🎮" true false)) /\
         deck s' !! j = Some (matched_up (mkCard 3 "🎮" true false)) /\
         locked s' = false /\
         forall k, k <> i -> k <> j -> deck s' !! k = deck sample_pending_equal !! k) /\
    (emoji (mkCard 2 "🎮" true false) <> emoji (mkCard 3 "🎮" true false) ->
       resolution_timer t0 (mkCard 2 "🎮" true false) (mkCard 3 "🎮" true false) = mkTimer 650 (t0 + 650) HideAgain /\
       forall now,
         let s' := step (Fire now (length ts)) sample_pending_equal in
         deck s' !! i = Some (hidden (mkCard 2 "🎮" true false)) /\
         deck s' !! j = Some (hidden (mkCard 3 "🎮" true false)) /\
         locked s' = false /\
         forall k, k <> i -> k <> j -> deck s' !! k = deck sample_pending_equal !! k) /\
    (forall now k t, timers sample_pending_equal !! k = Some t ->
       let s' := step (Fire now k) sample_pending_equal in
       (action t = MarkMatched ->
          deck s' !! i = Some (matched_up (mkCard 2 "🎮" true false)) /\
          deck s' !! j = Some (matched_up (mkCard 3 "🎮" true false))) /\
       (action t = HideAgain ->
          deck s' !! i = Some (hidden (mkCard 2 "🎮" true false)) /\
          deck s' !! j = Some (hidden (mkCard 3 "🎮" true false))) /\
       locked s' = false /\
       forall k', k' <> i -> k' <> j -> deck s' !! k' = deck sample_pending_equal !! k')).
Proof.
  split.
  - apply (pending_pair_resolution sample_pending
             (mkCard 1 "🍕" true false) (mkCard 3 "🎮" true false)).
    + unfold sample_pending, sample_one_open.
      repeat (apply Reachable_step; [| valid_event_tac]).
      apply Reachable_init.
    + vm_compute. reflexivity.
  - apply (pending_pair_resolution sample_pending_equal
             (mkCard 2 "🎮" true false) (mkCard 3 "🎮" true false)).
    + unfold sample_pending_equal.
      repeat (apply Reachable_step; [| valid_event_tac]).
      apply Reachable_init.
    + vm_compute. reflexivity.
Defined.
